(** * SIMDJsonExtractor: JSON path extraction over an on-demand document

    A shallow embedding of
    [velox/functions/prestosql/json/SIMDJsonExtractor.h]: the traversal
    [SIMDJsonExtractor::extract], the entry point [simdJsonExtract], the
    constructor and [isRootOnlyPath].  The parts of the extractor that are
    only declared in the header (the tokenizer, the extractor cache and the
    two look-up helpers) are modelled from the specification and marked so. *)

From Stdlib Require Import String Ascii List ZArith Arith Bool Lia.
Import ListNotations.
Open Scope string_scope.
Open Scope list_scope.

Set Implicit Arguments.
Set Warnings "-register-all,-notation-for-abbreviation".

(** ** The parser's interface, as the extractor uses it *)

Module simdjson.

Inductive error_code : Type :=
| TAPE_ERROR
| INCORRECT_TYPE
| SCALAR_DOCUMENT_AS_VALUE.

(** [simdjson_result<T>]: an error code or a value. *)
Definition simdjson_result (T : Type) : Type := (error_code + T)%type.

(** [simdjson::ondemand::json_type]. *)
Inductive json_type : Type :=
| array | object | number | string | boolean | null.

(** A node of the document, modelled as decodable: a node always has a type
    and its children can always be read, so the accesses of the traversal
    ([type()], the iteration of [get_array()], [child.value()]) do not
    throw.  Bytes that an access could not decode have no node here.
    Numbers carry an integer; the traversal never looks inside a scalar. *)
Inductive value : Type :=
| Null
| Boolean (b : bool)
| Number (n : Z)
| Str (s : String.string)
| Array (elements : list value)
| Object (fields : list (String.string * value)).

Definition type (v : value) : json_type :=
  match v with
  | Null => null
  | Boolean _ => boolean
  | Number _ => number
  | Str _ => string
  | Array _ => array
  | Object _ => object
  end.

Definition get_array (v : value) : simdjson_result (list value) :=
  match v with
  | Array elements => inr elements
  | _ => inl INCORRECT_TYPE
  end.

Definition get_object (v : value)
  : simdjson_result (list (String.string * value)) :=
  match v with
  | Object fields => inr fields
  | _ => inl INCORRECT_TYPE
  end.

(** [simdjson::ondemand::document]: the root of a parsed input. *)
Record document : Type := Document { root : value }.

Definition is_scalar (v : value) : bool :=
  match type v with
  | array | object => false
  | _ => true
  end.

(** [document::get_value()]: a document whose root is a scalar cannot be
    converted to a value (the note at SIMDJsonExtractor.h:171-173). *)
Definition get_value (d : document) : simdjson_result value :=
  if is_scalar (root d) then inl SCALAR_DOCUMENT_AS_VALUE
  else inr (root d).

End simdjson.

Import simdjson.

(** ** Exceptions and results *)

Inductive exception : Type :=
| simdjson_error (code : error_code)
| VeloxUserError (message : String.string).

(** The outcome of a call: it returns or it throws. *)
Inductive result (A : Type) : Type :=
| Ok (a : A)
| Throw (e : exception).

Arguments Ok {A} a.
Arguments Throw {A} e.

(** What a consumer is handed: the whole document (root-only path) or a
    value inside it. *)
Inductive node : Type :=
| OfDocument (d : document)
| OfValue (v : value).

(** ** Path tokenizer *)

Module JsonPathTokenizer.

Definition is_digit (c : ascii) : bool :=
  let n := nat_of_ascii c in ((48 <=? n)%nat && (n <=? 57)%nat)%bool.

Fixpoint all_digits (s : String.string) : bool :=
  match s with
  | EmptyString => true
  | String c s' => is_digit c && all_digits s'
  end.

Definition is_empty (s : String.string) : bool :=
  match s with
  | EmptyString => true
  | String _ _ => false
  end.

(** Bracket content: a non-negative integer literal or the literal [*]. *)
Definition valid_subscript (content : String.string) : bool :=
  (content =? "*") || (negb (is_empty content) && all_digits content).

Definition push (s : String.string) (c : ascii) : String.string :=
  (s ++ String c EmptyString)%string.

Inductive state : Type :=
| Boundary                          (* after [$] or a complete segment *)
| Field (name : String.string)      (* inside [.name] *)
| Subscript (content : String.string). (* inside [[k]], before the []] *)

(** Modelled from the spec: the tokenizer (JsonPathTokenizer.h, included at
    SIMDJsonExtractor.h:24, is not available).  Segments are [.name], with
    [name] a non-empty run of characters other than [.], [[] and []], or
    [[k]] with [k] a digit string or [*]; every token is kept as its
    text. *)
Fixpoint scan (st : state) (tokens : list String.string)
         (rest : String.string) : option (list String.string) :=
  match rest with
  | EmptyString =>
      match st with
      | Boundary => Some tokens
      | Field name => if is_empty name then None else Some (tokens ++ [name])
      | Subscript _ => None
      end
  | String c rest' =>
      match st with
      | Boundary =>
          if (c =? ".")%char then scan (Field "") tokens rest'
          else if (c =? "[")%char then scan (Subscript "") tokens rest'
          else None
      | Field name =>
          if (c =? ".")%char then
            if is_empty name then None
            else scan (Field "") (tokens ++ [name]) rest'
          else if (c =? "[")%char then
            if is_empty name then None
            else scan (Subscript "") (tokens ++ [name]) rest'
          else if (c =? "]")%char then None
          else scan (Field (push name c)) tokens rest'
      | Subscript content =>
          if (c =? "]")%char then
            if valid_subscript content
            then scan Boundary (tokens ++ [content]) rest'
            else None
          else scan (Subscript (push content c)) tokens rest'
      end
  end.

(** Modelled from the spec: [SIMDJsonExtractor::tokenize] (declared at
    SIMDJsonExtractor.h:68, its body is not available).  [None] is the
    [false] return; [Some tokens] is [true] with [tokens_] filled. *)
Definition tokenize (path : String.string) : option (list String.string) :=
  match path with
  | String c rest => if (c =? "$")%char then scan Boundary [] rest else None
  | EmptyString => None
  end.

End JsonPathTokenizer.

(** ** The extractor and its look-up helpers *)

(** [class SIMDJsonExtractor]: its only data member is [tokens_], the
    tokens as plain strings (SIMDJsonExtractor.h:73). *)
Record SIMDJsonExtractor : Type := { tokens_ : list String.string }.

(** [isRootOnlyPath] (SIMDJsonExtractor.h:49-51). *)
Definition isRootOnlyPath (this : SIMDJsonExtractor) : bool :=
  match tokens_ this with
  | [] => true
  | _ :: _ => false
  end.

(** The private constructor (SIMDJsonExtractor.h:62-66): it tokenizes the
    path and fails with a user error that carries the path. *)
Definition SIMDJsonExtractor_new (path : String.string)
  : result SIMDJsonExtractor :=
  match JsonPathTokenizer.tokenize path with
  | Some tokens => Ok {| tokens_ := tokens |}
  | None => Throw (VeloxUserError ("Invalid JSON path: " ++ path)%string)
  end.

Fixpoint find_field (key : String.string)
         (fields : list (String.string * value)) : option value :=
  match fields with
  | [] => None
  | (k, v) :: fields' => if k =? key then Some v else find_field key fields'
  end.

(** Modelled from the spec: [extractObject] (declared at
    SIMDJsonExtractor.h:82-85, its body is not available).  It looks the
    key up in the object; the result is the matched child, or nothing when
    the key is absent.  With a repeated key the first member is taken. *)
Definition extractObject (jsonObj : value) (key : String.string)
  : option value :=
  match get_object jsonObj with
  | inr fields => find_field key fields
  | inl _ => None
  end.

Definition digit_value (c : ascii) : nat := nat_of_ascii c - 48.

Fixpoint decimal (s : String.string) (acc : nat) : nat :=
  match s with
  | EmptyString => acc
  | String c s' => decimal s' (10 * acc + digit_value c)
  end.

Definition to_index (index : String.string) : option nat :=
  if (negb (JsonPathTokenizer.is_empty index)
      && JsonPathTokenizer.all_digits index)%bool
  then Some (decimal index 0)
  else None.

(** Modelled from the spec: [extractArray] (declared at
    SIMDJsonExtractor.h:87-90, its body is not available).  It selects
    the n-th element, 0-based; the result is nothing when the index is out
    of range.  A token that is not a number selects nothing. *)
Definition extractArray (jsonValue : value) (index : String.string)
  : option value :=
  match get_array jsonValue, to_index index with
  | inr elements, Some n => nth_error elements n
  | _, _ => None
  end.

Arguments extractArray : simpl never.

(** ** Traversal *)

Section Traversal.

(** The consumer is any callable: it may update a state of its own and it
    may throw. *)
Variable State : Type.

Definition Consumer : Type := node -> State -> result unit * State.

(** A run of the traversal from a consumer state: [None] when the recursion
    budget is used up, otherwise how the call ended and the state it left. *)
Definition Run : Type := State -> option (result unit * State).

(** The range-for over the children of an array: the first body that
    throws ends the loop. *)
Fixpoint for_each (A : Type) (range : list A) (body : A -> Run) : Run :=
  fun s =>
    match range with
    | [] => Some (Ok tt, s)
    | child :: range' =>
        match body child s with
        | Some (Ok tt, s') => for_each range' body s'
        | stopped => stopped
        end
    end.

Variable this : SIMDJsonExtractor.
Variable consumer : Consumer.

(** The token loop of [extract] (SIMDJsonExtractor.h:101-133) over the
    indices it still has to visit; [self] is the recursive call. *)
Definition forTokens (self : value -> nat -> Run)
  : list nat -> value -> Run :=
  fix loop (indices : list nat) (input : value) {struct indices} : Run :=
    match indices with
    | [] => fun s => Some (consumer (OfValue input) s)
    | tokenIndex :: later =>
        let token := nth tokenIndex (tokens_ this) "" in
        let next (result : option value) : Run :=
          match result with
          | None => fun s => Some (Ok tt, s)
          | Some found => loop later found
          end in
        match type input with
        | object => next (extractObject input token)
        | array =>
            if token =? "*" then
              match get_array input with
              | inl code => fun s => Some (Throw (simdjson_error code), s)
              | inr children =>
                  for_each children (fun child =>
                    if (tokenIndex =? length (tokens_ this) - 1)%nat
                    then fun s => Some (consumer (OfValue child) s)
                    else self child (tokenIndex + 1))
              end
            else next (extractArray input token)
        | _ => next None
        end
    end.

(** [SIMDJsonExtractor::extract] (SIMDJsonExtractor.h:92-134).  [depth]
    bounds the nesting of recursive calls; the loop runs over
    [tokenStartIndex, tokens_.size()). *)
Fixpoint extract (depth : nat) (json : value) (tokenStartIndex : nat) : Run :=
  match depth with
  | O => fun _ => None
  | S depth' =>
      forTokens (extract depth')
        (seq tokenStartIndex (length (tokens_ this) - tokenStartIndex)) json
  end.

End Traversal.

(** The consumer that records what it is handed, in order. *)
Definition recorder : Consumer (list node) :=
  fun matched seen => (Ok tt, seen ++ [matched]).

(** ** The extractor cache *)

(** A reference to a heap-allocated extractor: where it lives and what it
    holds.  Two references are the same object when their addresses agree. *)
Record reference : Type :=
  { address : nat; target : SIMDJsonExtractor }.

(** The process-wide cache: its entries, most recently used first, and the
    number of extractors allocated so far (the next fresh address). *)
Record ExtractorCache : Type :=
  { entries : list (String.string * reference); allocations : nat }.

Definition emptyCache : ExtractorCache :=
  {| entries := []; allocations := 0 |}.

(** [kMaxCacheSize] (SIMDJsonExtractor.h:71). *)
Definition kMaxCacheSize : nat := 32.

Fixpoint find_entry (path : String.string)
         (l : list (String.string * reference)) : option reference :=
  match l with
  | [] => None
  | (key, r) :: l' => if key =? path then Some r else find_entry path l'
  end.

Fixpoint remove_entry (path : String.string)
         (l : list (String.string * reference))
  : list (String.string * reference) :=
  match l with
  | [] => []
  | (key, r) :: l' =>
      if key =? path then remove_entry path l'
      else (key, r) :: remove_entry path l'
  end.

(** Modelled from the spec: [SIMDJsonExtractor::getInstance] (declared at
    SIMDJsonExtractor.h:59, its body is not available) and the cache
    behind it.  A cached path returns the shared extractor and becomes the
    most recently used one.  A new path is compiled (a failure leaves the
    cache as it was); when the cache already holds [kMaxCacheSize] entries
    the least recently used one is evicted to admit it. *)
Definition getInstance (path : String.string) (cache : ExtractorCache)
  : result reference * ExtractorCache :=
  match find_entry path (entries cache) with
  | Some hit =>
      (Ok hit,
       {| entries := (path, hit) :: remove_entry path (entries cache);
          allocations := allocations cache |})
  | None =>
      match SIMDJsonExtractor_new path with
      | Throw e => (Throw e, cache)
      | Ok fresh =>
          let made := {| address := allocations cache; target := fresh |} in
          let kept :=
            if (length (entries cache) <? kMaxCacheSize)%nat
            then entries cache
            else removelast (entries cache) in
          (Ok made,
           {| entries := (path, made) :: kept;
              allocations := S (allocations cache) |})
      end
  end.

(** The cache after a history of [getInstance] calls. *)
Fixpoint getInstances (paths : list String.string) (cache : ExtractorCache)
  : ExtractorCache :=
  match paths with
  | [] => cache
  | path :: paths' => getInstances paths' (snd (getInstance path cache))
  end.

(** ** The entry point *)

Section EntryPoint.

(** The external parser behind [SIMDJsonExtractor::parse]
    (SIMDJsonExtractor.h:53): it yields the document or an error.  It is
    any function: an On-Demand parser hands back a document for bytes it
    has not decoded yet. *)
Variable parse : String.string -> simdjson_result document.

Variable State : Type.

(** The [catch] clause (SIMDJsonExtractor.h:179-182): only a
    [simdjson_error] is caught; anything else leaves the function. *)
Definition catch (e : exception) : result bool :=
  match e with
  | simdjson_error _ => Ok false
  | other => Throw other
  end.

(** SIMDJsonExtractor.h:170-178: the consumer gets the document itself
    for the root-only path, otherwise the traversal starts from the
    document's value at token index 0.  The recursion budget is the number
    of tokens, which always suffices. *)
Definition traverse (extractor : SIMDJsonExtractor) (jsonDoc : document)
           (consumer : Consumer State) : Run State :=
  if isRootOnlyPath extractor then
    fun s => Some (consumer (OfDocument jsonDoc) s)
  else
    match get_value jsonDoc with
    | inl code => fun s => Some (Throw (simdjson_error code), s)
    | inr value =>
        extract extractor consumer (length (tokens_ extractor)) value 0
    end.

(** The body of the [try] block (SIMDJsonExtractor.h:166-178). *)
Definition tryBlock (json path : String.string) (consumer : Consumer State)
           (cache : ExtractorCache) (s : State)
  : option (result unit * (ExtractorCache * State)) :=
  match getInstance path cache with
  | (Throw e, cache') => Some (Throw e, (cache', s))
  | (Ok extractor, cache') =>
      match parse json with
      | inl code => Some (Throw (simdjson_error code), (cache', s))
      | inr jsonDoc =>
          match traverse (target extractor) jsonDoc consumer s with
          | Some (outcome, s') => Some (outcome, (cache', s'))
          | None => None
          end
      end
  end.

(** [simdJsonExtract] (SIMDJsonExtractor.h:156-185). *)
Definition simdJsonExtract (json path : String.string)
           (consumer : Consumer State) (cache : ExtractorCache) (s : State)
  : option (result bool * (ExtractorCache * State)) :=
  match tryBlock json path consumer cache s with
  | Some (Ok tt, after) => Some (Ok true, after)
  | Some (Throw e, after) => Some (catch e, after)
  | None => None
  end.

End EntryPoint.

(** A consumer wrapped so that every invocation is logged, whether it
    returns or throws. *)
Definition logged (State : Type) (consumer : Consumer State)
  : Consumer (State * list node) :=
  fun matched s =>
    let (outcome, s') := consumer matched (fst s) in
    (outcome, (s', snd s ++ [matched])).

Definition doc_a123 : document :=
  Document (Object [("a", Array [Number 1; Number 2; Number 3])]).


(** The cache invariant: every entry holds the tokenization of its key. *)
Definition compiled (entry : String.string * reference) : Prop :=
  JsonPathTokenizer.tokenize (fst entry) = Some (tokens_ (target (snd entry))).

Definition cache_ok (cache : ExtractorCache) : Prop :=
  Forall compiled (entries cache).

(** The recursion budget that always suffices from a token index. *)
Definition depth_bound (this : SIMDJsonExtractor) (tokenStartIndex : nat)
  : nat :=
  Nat.max 1 (length (tokens_ this) - tokenStartIndex).

(** A consumer that never throws. *)
Definition returns_normally (State : Type) (consumer : Consumer State)
  : Prop :=
  forall matched s, fst (consumer matched s) = Ok tt.

(** The consumer's state after it is handed the nodes of a list, in order. *)
Definition handed (State : Type) (consumer : Consumer State)
           (nodes : list node) (s : State) : State :=
  fold_left (fun s' matched => snd (consumer matched s')) nodes s.

(** An object whose only key is the text of a subscript. *)
Definition doc_key_0 : document := Document (Object [("0", Number 7)]).

Definition doc_key_star : document := Document (Object [("*", Number 8)]).

(** The cache holds distinct paths, at most [kMaxCacheSize] of them. *)
Definition cache_bounded (cache : ExtractorCache) : Prop :=
  NoDup (map fst (entries cache))
  /\ length (entries cache) <= kMaxCacheSize.

(** The paths other than [path] in a history of calls, and how many
    distinct ones there are. *)
Definition others (path : String.string) (paths : list String.string)
  : list String.string :=
  filter (fun q => negb (q =? path)) paths.

Definition distinct_others (path : String.string)
           (paths : list String.string) : nat :=
  length (nodup string_dec (others path paths)).

(** Thirty-two well-formed paths, all different: [$.x], [$.xx], ... *)
Fixpoint xs (n : nat) : String.string :=
  match n with
  | O => EmptyString
  | S n' => String "x" (xs n')
  end.

Definition field_path (n : nat) : String.string := ("$." ++ xs (S n))%string.

Definition thirty_two_paths : list String.string := map field_path (seq 0 32).

(** [path] is cached with reference [r], behind entries whose paths are all
    among [seen]. *)
Definition retained (path : String.string) (r : reference)
           (seen : list String.string)
           (l : list (String.string * reference)) : Prop :=
  exists pre post,
    l = pre ++ (path, r) :: post /\ incl (map fst pre) seen.

(** ** What a traversal delivers *)

(** Handing a list of nodes to a consumer, in order, until it throws. *)
Fixpoint feed (State : Type) (consumer : Consumer State)
         (nodes : list node) (s : State) : result unit * State :=
  match nodes with
  | [] => (Ok tt, s)
  | matched :: nodes' =>
      match consumer matched s with
      | (Ok tt, s') => feed consumer nodes' s'
      | thrown => thrown
      end
  end.

(** The nodes [extract] hands to the recording consumer, from a token
    index, with the budget that always suffices. *)
Definition delivered (this : SIMDJsonExtractor) (json : value)
           (tokenStartIndex : nat) : list node :=
  match extract this recorder (depth_bound this tokenStartIndex) json
          tokenStartIndex [] with
  | Some (_, seen) => seen
  | None => []
  end.

Definition value_of (matched : node) : value :=
  match matched with
  | OfValue v => v
  | OfDocument d => root d
  end.

(** The nodes the tokens left select below a node, by recursion on the
    tokens: the reference the traversal is compared with. *)
Fixpoint select (tokens : list String.string) (json : value) : list value :=
  match tokens with
  | [] => [json]
  | token :: rest =>
      match type json with
      | object =>
          match extractObject json token with
          | Some found => select rest found
          | None => []
          end
      | array =>
          if token =? "*" then
            match get_array json with
            | inr children => flat_map (select rest) children
            | inl _ => []
            end
          else
            match extractArray json token with
            | Some found => select rest found
            | None => []
            end
      | _ => []
      end
  end.

(** [v] is the node [top] or lies somewhere below it. *)
Inductive inside (top : value) : value -> Prop :=
| inside_top : inside top top
| inside_element (children : list value) (child : value) :
    inside top (Array children) -> In child children -> inside top child
| inside_member (fields : list (String.string * value))
                (key : String.string) (child : value) :
    inside top (Object fields) -> In (key, child) fields -> inside top child.

(** ** WaveOperator: the output columns an operator defines *)

Module wave.

(** [TypeKind], as far as [definesSubfields] tells kinds apart. *)
Inductive TypeKind : Type :=
| BOOLEAN | INTEGER | BIGINT | DOUBLE | VARCHAR | ARRAY | MAP | ROW.

(** A type: a row carries its children with their names. *)
Inductive TypePtr : Type :=
| BooleanType
| IntegerType
| BigintType
| DoubleType
| VarcharType
| ArrayType (element : TypePtr)
| MapType (key value : TypePtr)
| RowType (children : list (String.string * TypePtr)).

Definition kind (type : TypePtr) : TypeKind :=
  match type with
  | BooleanType => BOOLEAN
  | IntegerType => INTEGER
  | BigintType => BIGINT
  | DoubleType => DOUBLE
  | VarcharType => VARCHAR
  | ArrayType _ => ARRAY
  | MapType _ _ => MAP
  | RowType _ => ROW
  end.

Definition rowChildren (type : TypePtr) : list (String.string * TypePtr) :=
  match type with
  | RowType children => children
  | _ => []
  end.

(** [type->size()], [row.childAt(i)] and [row.nameOf(i)]. *)
Definition size (type : TypePtr) : nat :=
  match type with
  | RowType children => length children
  | ArrayType _ => 1
  | MapType _ _ => 2
  | _ => 0
  end.

Definition childAt (row : TypePtr) (i : nat) : TypePtr :=
  nth i (map snd (rowChildren row)) row.

Definition nameOf (row : TypePtr) (i : nat) : String.string :=
  nth i (map fst (rowChildren row)) "".

Section Operator.

(** The compile state and what it hands out are not part of this file:
    they are parameters.  A subfield is a pointer, compared by identity. *)
Variable CompileState : Type.
Variable Subfield : Type.
Variable AbstractOperand : Type.
Variable operand_id : AbstractOperand -> nat.
Variable toSubfield : String.string -> CompileState -> Subfield * CompileState.
Variable newOperand :
  TypePtr -> String.string -> CompileState -> AbstractOperand * CompileState.
Variable Subfield_eq_dec : forall a b : Subfield, {a = b} + {a <> b}.

(** The members the constructor fills. *)
Record WaveOperator : Type :=
  { outputType_ : TypePtr;
    subfields_ : list Subfield;
    types_ : list TypePtr;
    outputIds_ : list nat;
    defines_ : list (Subfield * AbstractOperand) }.

(** [defines_[Value(field)] = operand]: the entry of the key is replaced. *)
Definition assign (field : Subfield) (operand : AbstractOperand)
           (defines : list (Subfield * AbstractOperand))
  : list (Subfield * AbstractOperand) :=
  (field, operand)
    :: filter (fun entry =>
                 if Subfield_eq_dec (fst entry) field then false else true)
         defines.

Fixpoint definition (field : Subfield)
         (defines : list (Subfield * AbstractOperand))
  : option AbstractOperand :=
  match defines with
  | [] => None
  | (key, operand) :: defines' =>
      if Subfield_eq_dec key field then Some operand
      else definition field defines'
  end.

(** One iteration of the loop over the children of a row
    (WaveOperator.cpp:34-43). *)
Definition defineChild (row : TypePtr) (i : nat)
           (acc : WaveOperator * CompileState) : WaveOperator * CompileState :=
  let (this, state) := acc in
  let child := childAt row i in
  let name := nameOf row i in
  let (field, state1) := toSubfield name state in
  let (operand, state2) := newOperand child name state1 in
  ({| outputType_ := outputType_ this;
      subfields_ := subfields_ this ++ [field];
      types_ := types_ this ++ [child];
      outputIds_ := operand_id operand :: outputIds_ this;
      defines_ := assign field operand (defines_ this) |},
   state2).

(** The loop [for (auto i = 0; i < type->size(); ++i)] over the indices
    it visits. *)
Definition defineChildren (row : TypePtr) (indices : list nat)
           (acc : WaveOperator * CompileState) : WaveOperator * CompileState :=
  fold_left (fun acc' i => defineChild row i acc') indices acc.

(** [WaveOperator::definesSubfields] (WaveOperator.cpp:27-50).  Only a row
    is handled; [parentPath] is not used. *)
Definition definesSubfields (this : WaveOperator) (state : CompileState)
           (type : TypePtr) (parentPath : String.string)
  : WaveOperator * CompileState :=
  match kind type with
  | ROW => defineChildren type (seq 0 (size type)) (this, state)
  | _ => (this, state)
  end.

(** The constructor (WaveOperator.cpp:22-25). *)
Definition WaveOperator_new (state : CompileState) (type : TypePtr)
  : WaveOperator * CompileState :=
  definesSubfields
    {| outputType_ := type; subfields_ := []; types_ := [];
       outputIds_ := []; defines_ := [] |}
    state type "".

(** What the compile state hands out for the children at the given indices,
    asked in order: per child the subfield of its name, then the operand of
    its type and name; and the compile state left. *)
Fixpoint requested (row : TypePtr) (indices : list nat) (state : CompileState)
  : list (Subfield * AbstractOperand) * CompileState :=
  match indices with
  | [] => ([], state)
  | i :: indices' =>
      let (field, state1) := toSubfield (nameOf row i) state in
      let (operand, state2) :=
        newOperand (childAt row i) (nameOf row i) state1 in
      let (more, final) := requested row indices' state2 in
      ((field, operand) :: more, final)
  end.

(** Every subfield the operator lists has a defining operand, whose id is
    among the output ids. *)
Definition defined (this : WaveOperator) : Prop :=
  forall field,
    In field (subfields_ this) ->
    exists operand,
      definition field (defines_ this) = Some operand
      /\ In (operand_id operand) (outputIds_ this).

End Operator.

End wave.

(** An On-Demand parser that defers all decoding: whatever the bytes, it
    hands back the document handle. *)
Definition deferred (handle : document)
  : String.string -> simdjson_result document :=
  fun _ => inr handle.

(** The handle for the truncated input [{]: an object of which nothing has
    been read. *)
Definition doc_truncated : document := Document (Object []).

(** The largest [int]: the loop of [extract] keeps the token index in an
    [int] (SIMDJsonExtractor.h:101). *)
Definition INT_MAX : Z := 2147483647.

(** The start index and the token count fit an [int], so the index the loop
    starts from is the number the caller passed and it never overflows. *)
Definition within_int (this : SIMDJsonExtractor) (tokenStartIndex : nat)
  : Prop :=
  (Z.of_nat tokenStartIndex <= INT_MAX)%Z
  /\ (Z.of_nat (length (tokens_ this)) <= INT_MAX)%Z.

(** * Properties *)

(** ** The traversal terminates *)

Section TraversalFacts.

Variable State : Type.
Variable this : SIMDJsonExtractor.
Variable consumer : Consumer State.

Lemma for_each_ext (A : Type) (range : list A) (body1 body2 : A -> Run State) :
  (forall child s, In child range -> body1 child s = body2 child s) ->
  forall s, for_each range body1 s = for_each range body2 s.
Proof.
  induction range as [|child range IH]; intros Hext s; simpl.
  - reflexivity.
  - rewrite (Hext child s (or_introl eq_refl)).
    destruct (body2 child s) as [[[[]|e] s']|]; try reflexivity.
    apply IH. intros c s0 Hin. apply Hext. now right.
Qed.

Lemma for_each_total (A : Type) (range : list A) (body : A -> Run State) :
  (forall child s, In child range -> body child s <> None) ->
  forall s, for_each range body s <> None.
Proof.
  induction range as [|child range IH]; intros Hbody s; simpl.
  - discriminate.
  - pose proof (Hbody child s (or_introl eq_refl)) as Hc.
    destruct (body child s) as [[[[]|e] s']|]; try discriminate.
    + apply IH. intros c s0 Hin. apply Hbody. now right.
    + contradiction.
Qed.

(** One iteration of the token loop, as the source writes it. *)
Lemma forTokens_cons (self : value -> nat -> Run State)
      (tokenIndex : nat) (later : list nat) (input : value) :
  forTokens this consumer self (tokenIndex :: later) input
  = let token := nth tokenIndex (tokens_ this) "" in
    let next (result : option value) : Run State :=
      match result with
      | None => fun s => Some (Ok tt, s)
      | Some found => forTokens this consumer self later found
      end in
    match type input with
    | object => next (extractObject input token)
    | array =>
        if token =? "*" then
          match get_array input with
          | inl code => fun s => Some (Throw (simdjson_error code), s)
          | inr children =>
              for_each children (fun child =>
                if (tokenIndex =? length (tokens_ this) - 1)%nat
                then fun s => Some (consumer (OfValue child) s)
                else self child (tokenIndex + 1))
          end
        else next (extractArray input token)
    | _ => next None
    end.
Proof. reflexivity. Qed.

(** The loop only ever calls [self] one past an index it visits that is not
    the last token. *)
Lemma forTokens_ext (self1 self2 : value -> nat -> Run State)
      (indices : list nat) :
  (forall tokenIndex child s,
      In tokenIndex indices ->
      tokenIndex <> length (tokens_ this) - 1 ->
      self1 child (tokenIndex + 1) s = self2 child (tokenIndex + 1) s) ->
  forall input s,
    forTokens this consumer self1 indices input s
    = forTokens this consumer self2 indices input s.
Proof.
  induction indices as [|tokenIndex later IH]; intros Hself input s.
  - reflexivity.
  - assert (Hlater : forall found s0,
               forTokens this consumer self1 later found s0
               = forTokens this consumer self2 later found s0).
    { apply IH. intros k child s0 Hin. apply Hself. now right. }
    rewrite !forTokens_cons. cbv zeta.
    destruct (type input); try reflexivity.
    + destruct (nth tokenIndex (tokens_ this) "" =? "*").
      * destruct (get_array input) as [code|children]; [reflexivity|].
        apply for_each_ext. intros child s0 _.
        destruct (Nat.eqb_spec tokenIndex (length (tokens_ this) - 1));
          [reflexivity | apply Hself; [now left | assumption]].
      * destruct (extractArray input _); [apply Hlater | reflexivity].
    + destruct (extractObject input _); [apply Hlater | reflexivity].
Qed.

Lemma forTokens_total (self : value -> nat -> Run State)
      (indices : list nat) :
  (forall tokenIndex child s,
      In tokenIndex indices ->
      tokenIndex <> length (tokens_ this) - 1 ->
      self child (tokenIndex + 1) s <> None) ->
  forall input s, forTokens this consumer self indices input s <> None.
Proof.
  induction indices as [|tokenIndex later IH]; intros Hself input s.
  - discriminate.
  - assert (Hlater : forall found s0,
               forTokens this consumer self later found s0 <> None).
    { apply IH. intros k child s0 Hin. apply Hself. now right. }
    rewrite forTokens_cons. cbv zeta.
    destruct (type input); try discriminate.
    + destruct (nth tokenIndex (tokens_ this) "" =? "*").
      * destruct (get_array input) as [code|children]; [discriminate|].
        apply for_each_total. intros child s0 _.
        destruct (Nat.eqb_spec tokenIndex (length (tokens_ this) - 1));
          [discriminate | apply Hself; [now left | assumption]].
      * destruct (extractArray input _); [apply Hlater | discriminate].
    + destruct (extractObject input _); [apply Hlater | discriminate].
Qed.

(** A recursive call made from the loop over [tokenStartIndex, size) starts
    at a larger index and needs a budget one less than its caller's. *)
Lemma recursive_call_budget (tokenStartIndex tokenIndex depth : nat) :
  In tokenIndex
     (seq tokenStartIndex (length (tokens_ this) - tokenStartIndex)) ->
  tokenIndex <> length (tokens_ this) - 1 ->
  depth_bound this tokenStartIndex <= S depth ->
  tokenStartIndex < tokenIndex + 1
  /\ depth_bound this (tokenIndex + 1) <= depth.
Proof.
  unfold depth_bound. intros Hin Hlast Hdepth.
  apply in_seq in Hin. lia.
Qed.

Lemma extract_total (depth : nat) :
  forall json tokenStartIndex s,
    depth_bound this tokenStartIndex <= depth ->
    extract this consumer depth json tokenStartIndex s <> None.
Proof.
  induction depth as [|depth IH]; intros json tokenStartIndex s Hdepth.
  - unfold depth_bound in Hdepth. lia.
  - simpl. apply forTokens_total. intros tokenIndex child s0 Hin Hlast.
    apply IH.
    apply (recursive_call_budget tokenStartIndex); assumption.
Qed.

Lemma extract_stable (depth1 : nat) :
  forall depth2 json tokenStartIndex s,
    depth_bound this tokenStartIndex <= depth1 ->
    depth_bound this tokenStartIndex <= depth2 ->
    extract this consumer depth1 json tokenStartIndex s
    = extract this consumer depth2 json tokenStartIndex s.
Proof.
  induction depth1 as [|depth1 IH];
    intros depth2 json tokenStartIndex s H1 H2.
  - unfold depth_bound in H1. lia.
  - destruct depth2 as [|depth2]; [unfold depth_bound in H2; lia|].
    simpl. apply forTokens_ext. intros tokenIndex child s0 Hin Hlast.
    apply IH; apply (recursive_call_budget tokenStartIndex); assumption.
Qed.

End TraversalFacts.

(** C10: [extract] terminates on every document and compiled path.  A
    recursion budget of the number of tokens left (at least one) always
    gives a result, the same for every larger budget; and the loop of a
    call started at [tokenStartIndex] only recurses at token indices that
    are strictly larger, so the nesting of calls is bounded by the token
    count. *)
Theorem extract_terminates :
  forall (State : Type) (this : SIMDJsonExtractor) (consumer : Consumer State)
         (depth : nat) (json : value) (tokenStartIndex : nat) (s : State),
    1 <= depth ->
    length (tokens_ this) - tokenStartIndex <= depth ->
    (exists ended,
        forall depth',
          1 <= depth' ->
          length (tokens_ this) - tokenStartIndex <= depth' ->
          extract this consumer depth' json tokenStartIndex s = Some ended)
    /\ (forall self1 self2 : value -> nat -> Run State,
           (forall child index s',
               tokenStartIndex < index < length (tokens_ this) ->
               self1 child index s' = self2 child index s') ->
           forTokens this consumer self1
             (seq tokenStartIndex (length (tokens_ this) - tokenStartIndex))
             json s
           = forTokens this consumer self2
               (seq tokenStartIndex (length (tokens_ this) - tokenStartIndex))
               json s).
Proof.
  intros State this consumer depth json tokenStartIndex s Hpos Hdepth.
  split.
  - destruct (extract this consumer depth json tokenStartIndex s)
      as [ended|] eqn:Hrun.
    + exists ended. intros depth' Hpos' Hdepth'.
      rewrite <- Hrun. apply extract_stable; unfold depth_bound; lia.
    + exfalso. revert Hrun. apply extract_total. unfold depth_bound. lia.
  - intros self1 self2 Hagree. apply forTokens_ext.
    intros tokenIndex child s' Hin Hlast. apply Hagree.
    apply in_seq in Hin. lia.
Qed.

Lemma extract_terminates_witness :
  (1 <= 3 /\ length ["a"; "*"; "x"] - 0 <= 3)
  /\ exists ended,
      forall depth',
        1 <= depth' ->
        length ["a"; "*"; "x"] - 0 <= depth' ->
        extract {| tokens_ := ["a"; "*"; "x"] |} recorder depth'
          (Object [("a", Array [Object [("x", Number 1)]])]) 0 []
        = Some ended.
Proof.
  split; [simpl; lia|].
  apply (extract_terminates {| tokens_ := ["a"; "*"; "x"] |} recorder
           (depth := 3)
           (Object [("a", Array [Object [("x", Number 1)]])]) 0 []);
    simpl; lia.
Defined.

(** ** The cache keeps compiled paths *)

Lemma find_entry_In (path : String.string)
      (l : list (String.string * reference)) (r : reference) :
  find_entry path l = Some r -> In (path, r) l.
Proof.
  induction l as [|[key r'] l IH]; simpl; [discriminate|].
  destruct (String.eqb_spec key path) as [->|_].
  - intros [= ->]. now left.
  - intros H. right. now apply IH.
Qed.

Lemma remove_entry_incl (path : String.string)
      (l : list (String.string * reference)) :
  incl (remove_entry path l) l.
Proof.
  induction l as [|[key r] l IH]; simpl; [apply incl_refl|].
  destruct (key =? path).
  - now apply incl_tl.
  - apply incl_cons; [now left | now apply incl_tl].
Qed.

Lemma removelast_incl (A : Type) (l : list A) : incl (removelast l) l.
Proof.
  induction l as [|a [|b l] IH]; simpl.
  - apply incl_refl.
  - intros x [].
  - apply incl_cons; [now left | now apply incl_tl].
Qed.

Lemma Forall_incl (A : Type) (P : A -> Prop) (l1 l2 : list A) :
  incl l1 l2 -> Forall P l2 -> Forall P l1.
Proof.
  intros Hincl Hall. apply Forall_forall. intros x Hx.
  apply (proj1 (Forall_forall P l2) Hall). now apply Hincl.
Qed.

Lemma getInstance_cache_ok (path : String.string) (cache : ExtractorCache) :
  cache_ok cache -> cache_ok (snd (getInstance path cache)).
Proof.
  unfold cache_ok, getInstance. intros Hok.
  destruct (find_entry path (entries cache)) as [hit|] eqn:Hfind; simpl.
  - constructor.
    + apply find_entry_In in Hfind.
      apply (proj1 (Forall_forall _ _) Hok _ Hfind).
    + apply (Forall_incl (remove_entry_incl path (entries cache)) Hok).
  - unfold SIMDJsonExtractor_new.
    destruct (JsonPathTokenizer.tokenize path) as [tokens|] eqn:Htok; simpl.
    + constructor; [exact Htok|].
      destruct (length (entries cache) <? kMaxCacheSize)%nat; [exact Hok|].
      apply (Forall_incl (removelast_incl (entries cache)) Hok).
    + exact Hok.
Qed.

Lemma getInstances_cache_ok (paths : list String.string) :
  forall cache, cache_ok cache -> cache_ok (getInstances paths cache).
Proof.
  induction paths as [|path paths IH]; intros cache Hok; simpl.
  - exact Hok.
  - apply IH. now apply getInstance_cache_ok.
Qed.

Lemma emptyCache_ok : cache_ok emptyCache.
Proof. constructor. Qed.

(** On a well-formed cache [getInstance] hands out the tokenization of the
    path, whether it was cached or is compiled now. *)
Lemma getInstance_compiles (path : String.string) (cache : ExtractorCache)
      (tokens : list String.string) :
  cache_ok cache ->
  JsonPathTokenizer.tokenize path = Some tokens ->
  exists where_,
    fst (getInstance path cache)
    = Ok {| address := where_; target := {| tokens_ := tokens |} |}.
Proof.
  unfold cache_ok, getInstance. intros Hok Htok.
  destruct (find_entry path (entries cache)) as [hit|] eqn:Hfind; simpl.
  - apply find_entry_In in Hfind.
    pose proof (proj1 (Forall_forall _ _) Hok _ Hfind) as Hc.
    unfold compiled in Hc. simpl in Hc. rewrite Htok in Hc.
    destruct hit as [a [toks]]. simpl in Hc. injection Hc as <-.
    now exists a.
  - unfold SIMDJsonExtractor_new. rewrite Htok. simpl.
    now exists (allocations cache).
Qed.

(** A path the tokenizer rejects is never cached, so [getInstance] throws
    from the constructor and leaves the cache as it was. *)
Lemma getInstance_invalid (path : String.string) (cache : ExtractorCache) :
  cache_ok cache ->
  JsonPathTokenizer.tokenize path = None ->
  getInstance path cache
  = (Throw (VeloxUserError ("Invalid JSON path: " ++ path)%string), cache).
Proof.
  unfold cache_ok, getInstance. intros Hok Htok.
  destruct (find_entry path (entries cache)) as [hit|] eqn:Hfind.
  - apply find_entry_In in Hfind.
    pose proof (proj1 (Forall_forall _ _) Hok _ Hfind) as Hc.
    unfold compiled in Hc. simpl in Hc. congruence.
  - unfold SIMDJsonExtractor_new. now rewrite Htok.
Qed.

(** The entry point on a path that compiles and an input that parses: the
    result is read off the traversal. *)
Lemma simdJsonExtract_traverse (State : Type)
      (parse : String.string -> simdjson_result document)
      (json path : String.string) (consumer : Consumer State)
      (cache : ExtractorCache) (s : State)
      (tokens : list String.string) (jsonDoc : document) :
  cache_ok cache ->
  JsonPathTokenizer.tokenize path = Some tokens ->
  parse json = inr jsonDoc ->
  simdJsonExtract parse json path consumer cache s
  = match traverse {| tokens_ := tokens |} jsonDoc consumer s with
    | Some (Ok tt, s') =>
        Some (Ok true, (snd (getInstance path cache), s'))
    | Some (Throw e, s') =>
        Some (catch e, (snd (getInstance path cache), s'))
    | None => None
    end.
Proof.
  intros Hok Htok Hparse.
  destruct (getInstance_compiles path Hok Htok) as [a Hget].
  unfold simdJsonExtract, tryBlock.
  destruct (getInstance path cache) as [got cache'].
  simpl in Hget. subst got. simpl. rewrite Hparse.
  destruct (traverse {| tokens_ := tokens |} jsonDoc consumer s)
    as [[[[]|e] s']|]; reflexivity.
Qed.

(** ** One step of the traversal, by the kind of node *)

Section Steps.

Variable State : Type.
Variable this : SIMDJsonExtractor.
Variable consumer : Consumer State.

Lemma extract_unfold (depth : nat) (json : value) (tokenIndex : nat) :
  tokenIndex < length (tokens_ this) ->
  extract this consumer (S depth) json tokenIndex
  = forTokens this consumer (extract this consumer depth)
      (tokenIndex :: seq (S tokenIndex) (length (tokens_ this) - S tokenIndex))
      json.
Proof.
  intros Hlt. simpl.
  replace (length (tokens_ this) - tokenIndex)
    with (S (length (tokens_ this) - S tokenIndex)) by lia.
  reflexivity.
Qed.

(** Past the last token the node is handed to the consumer. *)
Lemma extract_end (depth : nat) (json : value) (tokenIndex : nat) (s : State) :
  length (tokens_ this) <= tokenIndex ->
  extract this consumer (S depth) json tokenIndex s
  = Some (consumer (OfValue json) s).
Proof.
  intros Hle. simpl.
  replace (length (tokens_ this) - tokenIndex) with 0 by lia.
  reflexivity.
Qed.

(** At an object the token, whatever it is, is looked up as a key; the loop
    goes on at the next index with the member found. *)
Lemma extract_object (depth : nat) (fields : list (String.string * value))
      (tokenIndex : nat) (s : State) :
  tokenIndex < length (tokens_ this) ->
  extract this consumer (S depth) (Object fields) tokenIndex s
  = match find_field (nth tokenIndex (tokens_ this) "") fields with
    | Some found => extract this consumer (S depth) found (S tokenIndex) s
    | None => Some (Ok tt, s)
    end.
Proof.
  intros Hlt. rewrite (extract_unfold _ _ Hlt), forTokens_cons.
  cbn. destruct (find_field _ fields); reflexivity.
Qed.

(** At an array a wildcard fans out over the children and returns. *)
Lemma extract_wildcard (depth : nat) (children : list value)
      (tokenIndex : nat) (s : State) :
  tokenIndex < length (tokens_ this) ->
  nth tokenIndex (tokens_ this) "" = "*" ->
  extract this consumer (S depth) (Array children) tokenIndex s
  = for_each children
      (fun child =>
         if (tokenIndex =? length (tokens_ this) - 1)%nat
         then fun s' => Some (consumer (OfValue child) s')
         else extract this consumer depth child (tokenIndex + 1))
      s.
Proof.
  intros Hlt Hstar. rewrite (extract_unfold _ _ Hlt), forTokens_cons. simpl.
  rewrite Hstar. reflexivity.
Qed.

(** At an array any other token is an element index. *)
Lemma extract_subscript (depth : nat) (children : list value)
      (tokenIndex : nat) (s : State) :
  tokenIndex < length (tokens_ this) ->
  nth tokenIndex (tokens_ this) "" <> "*" ->
  extract this consumer (S depth) (Array children) tokenIndex s
  = match extractArray (Array children) (nth tokenIndex (tokens_ this) "") with
    | Some found => extract this consumer (S depth) found (S tokenIndex) s
    | None => Some (Ok tt, s)
    end.
Proof.
  intros Hlt Hstar. rewrite (extract_unfold _ _ Hlt), forTokens_cons. simpl.
  destruct (String.eqb_spec (nth tokenIndex (tokens_ this) "") "*");
    [contradiction|].
  destruct (extractArray _ _); reflexivity.
Qed.

(** At a scalar with a token left the call returns without a result. *)
Lemma extract_scalar (depth : nat) (json : value) (tokenIndex : nat)
      (s : State) :
  tokenIndex < length (tokens_ this) ->
  is_scalar json = true ->
  extract this consumer (S depth) json tokenIndex s = Some (Ok tt, s).
Proof.
  intros Hlt Hscalar. rewrite (extract_unfold _ _ Hlt), forTokens_cons.
  destruct json; try discriminate Hscalar; reflexivity.
Qed.

(** Handing the children of an array to a logging consumer that returns
    each time. *)
Lemma for_each_logged (children : list value) :
  returns_normally consumer ->
  forall s log,
    for_each children
      (fun child s' => Some (logged consumer (OfValue child) s')) (s, log)
    = Some (Ok tt, (handed consumer (map OfValue children) s,
                    log ++ map OfValue children)).
Proof.
  intros Hret. induction children as [|child children IH]; intros s log.
  - simpl. now rewrite app_nil_r.
  - simpl. unfold logged at 1. simpl.
    pose proof (Hret (OfValue child) s) as Hc.
    destruct (consumer (OfValue child) s) as [outcome s1].
    simpl in Hc. subst outcome. rewrite IH. simpl.
    now rewrite <- app_assoc.
Qed.

End Steps.

(** ** A consumer that returns makes the traversal return *)

Section Returns.

Variable State : Type.
Variable this : SIMDJsonExtractor.
Variable consumer : Consumer State.
Hypothesis consumer_returns : returns_normally consumer.

Lemma consumer_returns_eq (matched : node) (s : State) :
  consumer matched s = (Ok tt, snd (consumer matched s)).
Proof.
  pose proof (consumer_returns matched s) as H.
  destruct (consumer matched s) as [outcome s']. simpl in *. now subst.
Qed.

Lemma for_each_returns (A : Type) (range : list A) (body : A -> Run State) :
  (forall child s outcome s',
      body child s = Some (outcome, s') -> outcome = Ok tt) ->
  forall s outcome s',
    for_each range body s = Some (outcome, s') -> outcome = Ok tt.
Proof.
  intros Hbody. induction range as [|child range IH]; intros s outcome s'.
  - simpl. now intros [= <- _].
  - simpl. destruct (body child s) as [[[[]|e] s1]|] eqn:Hrun.
    + apply IH.
    + apply Hbody in Hrun. discriminate.
    + discriminate.
Qed.

Lemma forTokens_returns (self : value -> nat -> Run State)
      (indices : list nat) :
  (forall child index s outcome s',
      self child index s = Some (outcome, s') -> outcome = Ok tt) ->
  forall input s outcome s',
    forTokens this consumer self indices input s = Some (outcome, s') ->
    outcome = Ok tt.
Proof.
  intros Hself.
  induction indices as [|tokenIndex later IH]; intros input s outcome s'.
  - simpl. rewrite consumer_returns_eq. now intros [= <- _].
  - rewrite forTokens_cons.
    destruct input as [| b | n | str | children | fields]; cbn;
      try (now intros [= <- _]).
    + destruct (nth tokenIndex (tokens_ this) "" =? "*").
      * apply for_each_returns. intros child s0 o s1.
        destruct (tokenIndex =? length (tokens_ this) - 1)%nat.
        -- rewrite consumer_returns_eq. now intros [= <- _].
        -- apply Hself.
      * destruct (extractArray _ _); [apply IH | now intros [= <- _]].
    + destruct (find_field _ fields); [apply IH | now intros [= <- _]].
Qed.

Lemma extract_returns (depth : nat) :
  forall json tokenStartIndex s outcome s',
    extract this consumer depth json tokenStartIndex s = Some (outcome, s') ->
    outcome = Ok tt.
Proof.
  induction depth as [|depth IH]; intros json tokenStartIndex s outcome s'.
  - discriminate.
  - simpl. apply forTokens_returns. exact IH.
Qed.

End Returns.

Lemma logged_returns (State : Type) (consumer : Consumer State) :
  returns_normally consumer -> returns_normally (logged consumer).
Proof.
  intros Hret matched [s log]. unfold logged. simpl.
  pose proof (Hret matched s) as H.
  destruct (consumer matched s) as [outcome s']. exact H.
Qed.

Lemma recorder_returns : returns_normally recorder.
Proof. intros matched s. reflexivity. Qed.

Lemma for_each_recorder (children : list value) :
  forall seen,
    for_each children (fun child s => Some (recorder (OfValue child) s)) seen
    = Some (Ok tt, seen ++ map OfValue children).
Proof.
  induction children as [|child children IH]; intros seen; simpl.
  - now rewrite app_nil_r.
  - rewrite IH. now rewrite <- app_assoc.
Qed.

(** ** The three ways into the traversal *)

Lemma traverse_root_only (State : Type) (jsonDoc : document)
      (consumer : Consumer State) (s : State) :
  traverse {| tokens_ := [] |} jsonDoc consumer s
  = Some (consumer (OfDocument jsonDoc) s).
Proof. reflexivity. Qed.

Lemma traverse_scalar_root (State : Type) (token : String.string)
      (rest : list String.string) (jsonDoc : document)
      (consumer : Consumer State) (s : State) :
  is_scalar (root jsonDoc) = true ->
  traverse {| tokens_ := token :: rest |} jsonDoc consumer s
  = Some (Throw (simdjson_error SCALAR_DOCUMENT_AS_VALUE), s).
Proof.
  intros Hscalar. unfold traverse, get_value. simpl isRootOnlyPath.
  now rewrite Hscalar.
Qed.

Lemma traverse_extract (State : Type) (token : String.string)
      (rest : list String.string) (jsonDoc : document)
      (consumer : Consumer State) (s : State) :
  is_scalar (root jsonDoc) = false ->
  traverse {| tokens_ := token :: rest |} jsonDoc consumer s
  = extract {| tokens_ := token :: rest |} consumer (S (length rest))
      (root jsonDoc) 0 s.
Proof.
  intros Hscalar. unfold traverse, get_value. simpl isRootOnlyPath.
  now rewrite Hscalar.
Qed.

(** ** Wildcards *)

(** C1: at an array node whose current token is the wildcard the traversal
    visits the elements in array order: on the last token the consumer is
    invoked once per element, otherwise [extract] is called on each element
    at the next token index; nothing else is done at that level afterwards.
    For the path [$.a[*]] over the document {a: [1, 2, 3]} a consumer that
    returns is invoked three times, with 1, 2 and 3 in that order, and the
    call succeeds. *)
Theorem wildcard_fans_out :
  forall (State : Type) (consumer : Consumer State),
    (forall this depth children tokenIndex s,
        tokenIndex < length (tokens_ this) ->
        nth tokenIndex (tokens_ this) "" = "*" ->
        extract this consumer (S depth) (Array children) tokenIndex s
        = for_each children
            (fun child =>
               if (tokenIndex =? length (tokens_ this) - 1)%nat
               then fun s' => Some (consumer (OfValue child) s')
               else extract this consumer depth child (tokenIndex + 1))
            s)
    /\ (forall this depth children tokenIndex s log,
           S tokenIndex = length (tokens_ this) ->
           nth tokenIndex (tokens_ this) "" = "*" ->
           returns_normally consumer ->
           extract this (logged consumer) (S depth) (Array children)
             tokenIndex (s, log)
           = Some (Ok tt, (handed consumer (map OfValue children) s,
                           log ++ map OfValue children)))
    /\ (forall parse json cache s,
           cache_ok cache ->
           parse json = inr doc_a123 ->
           returns_normally consumer ->
           simdJsonExtract parse json "$.a[*]" (logged consumer) cache (s, [])
           = Some (Ok true,
                   (snd (getInstance "$.a[*]" cache),
                    (handed consumer
                       [OfValue (Number 1); OfValue (Number 2);
                        OfValue (Number 3)] s,
                     [OfValue (Number 1); OfValue (Number 2);
                      OfValue (Number 3)])))).
Proof.
  intros State consumer.
  assert (Hlast : forall this depth children tokenIndex s log,
             S tokenIndex = length (tokens_ this) ->
             nth tokenIndex (tokens_ this) "" = "*" ->
             returns_normally consumer ->
             extract this (logged consumer) (S depth) (Array children)
               tokenIndex (s, log)
             = Some (Ok tt, (handed consumer (map OfValue children) s,
                             log ++ map OfValue children))).
  { intros this depth children tokenIndex s log Hsize Hstar Hret.
    rewrite extract_wildcard by (assumption || lia).
    replace (length (tokens_ this) - 1) with tokenIndex by lia.
    rewrite Nat.eqb_refl. now apply for_each_logged. }
  split; [|split].
  - intros. now apply extract_wildcard.
  - exact Hlast.
  - intros parse json cache s Hok Hparse Hret.
    rewrite (@simdJsonExtract_traverse _ parse json "$.a[*]" (logged consumer)
               cache (s, []) ["a"; "*"] doc_a123 Hok eq_refl Hparse).
    rewrite traverse_extract by reflexivity.
    unfold doc_a123, root.
    rewrite extract_object by (simpl; lia).
    simpl nth. simpl find_field. cbv iota beta.
    rewrite (Hlast {| tokens_ := ["a"; "*"] |}) by (reflexivity || assumption).
    reflexivity.
Qed.

Lemma wildcard_fans_out_witness :
  (cache_ok emptyCache
   /\ (fun _ : String.string => @inr error_code document doc_a123) "json"
      = inr doc_a123
   /\ returns_normally recorder)
  /\ simdJsonExtract (fun _ => inr doc_a123) "json" "$.a[*]"
       (logged recorder) emptyCache ([], [])
     = Some (Ok true,
             (snd (getInstance "$.a[*]" emptyCache),
              (handed recorder
                 [OfValue (Number 1); OfValue (Number 2); OfValue (Number 3)]
                 [],
               [OfValue (Number 1); OfValue (Number 2);
                OfValue (Number 3)]))).
Proof.
  split.
  - split; [constructor | split; [reflexivity | intros m s; reflexivity]].
  - apply (proj2 (proj2 (wildcard_fans_out recorder))).
    + constructor.
    + reflexivity.
    + intros m s. reflexivity.
Defined.

(** ** Branches that stop silently *)

(** C4: at an object node whose current token names a key the object does
    not have, the branch stops: the consumer is not invoked, nothing is
    thrown.  In particular [$.missing] over an object without that key
    returns success with no consumer invocation. *)
Theorem absent_key_stops_branch :
  forall (State : Type) (consumer : Consumer State),
    (forall this depth fields tokenIndex s log,
        tokenIndex < length (tokens_ this) ->
        find_field (nth tokenIndex (tokens_ this) "") fields = None ->
        extract this (logged consumer) (S depth) (Object fields) tokenIndex
          (s, log)
        = Some (Ok tt, (s, log)))
    /\ (forall parse json fields cache s,
           cache_ok cache ->
           parse json = inr (Document (Object fields)) ->
           find_field "missing" fields = None ->
           simdJsonExtract parse json "$.missing" (logged consumer) cache
             (s, [])
           = Some (Ok true, (snd (getInstance "$.missing" cache), (s, [])))).
Proof.
  intros State consumer. split.
  - intros this depth fields tokenIndex s log Hlt Habsent.
    rewrite extract_object by assumption. now rewrite Habsent.
  - intros parse json fields cache s Hok Hparse Habsent.
    rewrite (@simdJsonExtract_traverse _ parse json "$.missing"
               (logged consumer) cache (s, []) ["missing"] _
               Hok eq_refl Hparse).
    rewrite traverse_extract by reflexivity.
    unfold root. rewrite extract_object by (simpl; lia).
    simpl nth. now rewrite Habsent.
Qed.

Lemma absent_key_stops_branch_witness :
  (cache_ok emptyCache
   /\ (fun _ : String.string =>
         @inr error_code document (Document (Object [("a", Number 1)])))
        "json"
      = inr (Document (Object [("a", Number 1)]))
   /\ find_field "missing" [("a", Number 1)] = None)
  /\ simdJsonExtract
       (fun _ => inr (Document (Object [("a", Number 1)])))
       "json" "$.missing" (logged recorder) emptyCache ([], [])
     = Some (Ok true, (snd (getInstance "$.missing" emptyCache), ([], []))).
Proof.
  split.
  - split; [constructor | split; reflexivity].
  - apply (proj2 (absent_key_stops_branch recorder) _ "json"
             [("a", Number 1)] emptyCache []).
    + constructor.
    + reflexivity.
    + reflexivity.
Defined.

(** A valid document whose root is a scalar, with a non-trivial path: the
    call returns [false]. *)
Lemma scalar_root_returns_false :
  simdJsonExtract (fun _ => inr (Document (Number 1))) "1" "$.a"
    recorder emptyCache []
  = Some (Ok false, (snd (getInstance "$.a" emptyCache), [])).
Proof. reflexivity. Qed.

(** C5 (amended): a scalar node reached by [extract] while tokens remain
    stops its branch with no consumer invocation and no error; with a
    consumer that returns, a document whose root is an object or an array
    and a non-trivial path always give success.  When the root of the
    document is itself a scalar the call returns [false], with no consumer
    invocation. *)
Theorem scalar_stops_branch :
  forall (State : Type) (consumer : Consumer State),
    (forall this depth json tokenIndex s log,
        tokenIndex < length (tokens_ this) ->
        is_scalar json = true ->
        extract this (logged consumer) (S depth) json tokenIndex (s, log)
        = Some (Ok tt, (s, log)))
    /\ (forall parse json path token rest jsonDoc cache s,
           cache_ok cache ->
           JsonPathTokenizer.tokenize path = Some (token :: rest) ->
           parse json = inr jsonDoc ->
           is_scalar (root jsonDoc) = false ->
           returns_normally consumer ->
           exists after,
             simdJsonExtract parse json path (logged consumer) cache (s, [])
             = Some (Ok true, (snd (getInstance path cache), after)))
    /\ (forall parse json path token rest jsonDoc cache s,
           cache_ok cache ->
           JsonPathTokenizer.tokenize path = Some (token :: rest) ->
           parse json = inr jsonDoc ->
           is_scalar (root jsonDoc) = true ->
           simdJsonExtract parse json path (logged consumer) cache (s, [])
           = Some (Ok false, (snd (getInstance path cache), (s, [])))).
Proof.
  intros State consumer. split; [|split].
  - intros this depth json tokenIndex s log Hlt Hscalar.
    now apply extract_scalar.
  - intros parse json path token rest jsonDoc cache s
           Hok Htok Hparse Hroot Hret.
    rewrite (@simdJsonExtract_traverse _ parse json path (logged consumer)
               cache (s, []) _ _ Hok Htok Hparse).
    rewrite traverse_extract by assumption.
    destruct (extract {| tokens_ := token :: rest |} (logged consumer)
                (S (length rest)) (root jsonDoc) 0 (s, []))
      as [[outcome after]|] eqn:Hrun.
    + apply (@extract_returns _ _ _ (logged_returns Hret)) in Hrun.
      subst outcome.
      now exists after.
    + exfalso. revert Hrun. apply extract_total.
      unfold depth_bound. simpl. lia.
  - intros parse json path token rest jsonDoc cache s
           Hok Htok Hparse Hroot.
    rewrite (@simdJsonExtract_traverse _ parse json path (logged consumer)
               cache (s, []) _ _ Hok Htok Hparse).
    now rewrite traverse_scalar_root by assumption.
Qed.

Lemma scalar_stops_branch_witness :
  (cache_ok emptyCache
   /\ JsonPathTokenizer.tokenize "$.a" = Some ["a"]
   /\ (fun _ : String.string =>
         @inr error_code document (Document (Number 1))) "1"
      = inr (Document (Number 1))
   /\ is_scalar (root (Document (Number 1))) = true)
  /\ simdJsonExtract (fun _ => inr (Document (Number 1))) "1" "$.a"
       (logged recorder) emptyCache ([], [])
     = Some (Ok false, (snd (getInstance "$.a" emptyCache), ([], []))).
Proof.
  split.
  - split; [constructor | repeat split].
  - apply (proj2 (proj2 (scalar_stops_branch recorder)) _ "1" "$.a" "a" []
             (Document (Number 1)) emptyCache []).
    + constructor.
    + reflexivity.
    + reflexivity.
    + reflexivity.
Defined.

(** ** Tokens are looked up by their text *)

(** C9: tokens are plain strings, so at an object node the current token is
    looked up as a key whatever it was in the path: [$[0]] and [$.0] compile
    to the same token, [$[0]] over {0: 7} selects the member with key 0 and
    [$[*]] over {*: 8} selects the member with key *; neither is rejected or
    skipped. *)
Theorem subscript_text_is_object_key :
  (forall (State : Type) this (consumer : Consumer State)
          depth fields tokenIndex s,
      tokenIndex < length (tokens_ this) ->
      extract this consumer (S depth) (Object fields) tokenIndex s
      = match find_field (nth tokenIndex (tokens_ this) "") fields with
        | Some found => extract this consumer (S depth) found (S tokenIndex) s
        | None => Some (Ok tt, s)
        end)
  /\ JsonPathTokenizer.tokenize "$[0]" = JsonPathTokenizer.tokenize "$.0"
  /\ (forall parse json cache,
         cache_ok cache ->
         parse json = inr doc_key_0 ->
         simdJsonExtract parse json "$[0]" recorder cache []
         = Some (Ok true,
                 (snd (getInstance "$[0]" cache), [OfValue (Number 7)])))
  /\ (forall parse json cache,
         cache_ok cache ->
         parse json = inr doc_key_star ->
         simdJsonExtract parse json "$[*]" recorder cache []
         = Some (Ok true,
                 (snd (getInstance "$[*]" cache), [OfValue (Number 8)]))).
Proof.
  split; [|split; [reflexivity | split]].
  - intros. now apply extract_object.
  - intros parse json cache Hok Hparse.
    now rewrite (@simdJsonExtract_traverse _ parse json "$[0]" recorder
                   cache [] ["0"] _ Hok eq_refl Hparse).
  - intros parse json cache Hok Hparse.
    now rewrite (@simdJsonExtract_traverse _ parse json "$[*]" recorder
                   cache [] ["*"] _ Hok eq_refl Hparse).
Qed.

Lemma subscript_text_is_object_key_witness :
  (cache_ok emptyCache
   /\ (fun _ : String.string => @inr error_code document doc_key_star) "json"
      = inr doc_key_star)
  /\ simdJsonExtract (fun _ => inr doc_key_star) "json" "$[*]"
       recorder emptyCache []
     = Some (Ok true,
             (snd (getInstance "$[*]" emptyCache), [OfValue (Number 8)])).
Proof.
  split.
  - split; [constructor | reflexivity].
  - apply (proj2 (proj2 (proj2 subscript_text_is_object_key)) _ "json").
    + constructor.
    + reflexivity.
Defined.

(** ** The entry point *)

Lemma traverse_total (State : Type) (extractor : SIMDJsonExtractor)
      (jsonDoc : document) (consumer : Consumer State) (s : State) :
  traverse extractor jsonDoc consumer s <> None.
Proof.
  unfold traverse. destruct extractor as [[|token rest]].
  - discriminate.
  - simpl isRootOnlyPath. cbv iota.
    destruct (get_value jsonDoc) as [code|value]; [discriminate|].
    apply extract_total. unfold depth_bound. simpl. lia.
Qed.

(** C3: for a document that parses, the path [$] compiles to no token and
    the consumer is invoked exactly once, with the document itself; the
    call returns [true] when that invocation returns. *)
Theorem root_path_hands_document :
  forall (State : Type) parse json jsonDoc (consumer : Consumer State)
         cache s,
    cache_ok cache ->
    parse json = inr jsonDoc ->
    JsonPathTokenizer.tokenize "$" = Some []
    /\ (exists outcome,
           simdJsonExtract parse json "$" (logged consumer) cache (s, [])
           = Some (outcome,
                   (snd (getInstance "$" cache),
                    (snd (consumer (OfDocument jsonDoc) s),
                     [OfDocument jsonDoc]))))
    /\ (fst (consumer (OfDocument jsonDoc) s) = Ok tt ->
        simdJsonExtract parse json "$" (logged consumer) cache (s, [])
        = Some (Ok true,
                (snd (getInstance "$" cache),
                 (snd (consumer (OfDocument jsonDoc) s),
                  [OfDocument jsonDoc])))).
Proof.
  intros State parse json jsonDoc consumer cache s Hok Hparse.
  split; [reflexivity|].
  rewrite (@simdJsonExtract_traverse _ parse json "$" (logged consumer)
             cache (s, []) [] _ Hok eq_refl Hparse).
  rewrite traverse_root_only. unfold logged. simpl.
  destruct (consumer (OfDocument jsonDoc) s) as [[[]|e] s']; simpl.
  - split; [now exists (Ok true) | reflexivity].
  - split; [now exists (catch e) | discriminate].
Qed.

Lemma root_path_hands_document_witness :
  (cache_ok emptyCache
   /\ (fun _ : String.string => @inr error_code document doc_a123) "json"
      = inr doc_a123)
  /\ simdJsonExtract (fun _ => inr doc_a123) "json" "$"
       (logged recorder) emptyCache ([], [])
     = Some (Ok true,
             (snd (getInstance "$" emptyCache),
              (snd (recorder (OfDocument doc_a123) []),
               [OfDocument doc_a123]))).
Proof.
  split.
  - split; [constructor | reflexivity].
  - apply (proj2 (proj2 (@root_path_hands_document _ (fun _ => inr doc_a123)
                           "json" doc_a123 recorder emptyCache []
                           emptyCache_ok eq_refl))).
    reflexivity.
Defined.

(** The truncated input [{] with the path [$] and a parser that defers
    decoding: the consumer is handed the document (SIMDJsonExtractor.h:174)
    before anything is decoded; it returns, and the call returns [true]
    after one invocation. *)
Lemma undecoded_input_reaches_consumer :
  simdJsonExtract (deferred doc_truncated) "{" "$" recorder emptyCache []
  = Some (Ok true,
          (snd (getInstance "$" emptyCache), [OfDocument doc_truncated])).
Proof. reflexivity. Qed.

(** C6 (amended): an input the parser rejects in [parse], with a path that
    compiles: the call returns [false] and the consumer is not invoked. *)
Theorem malformed_json_returns_false :
  forall (State : Type) parse json code path tokens
         (consumer : Consumer State) cache s,
    cache_ok cache ->
    JsonPathTokenizer.tokenize path = Some tokens ->
    parse json = inl code ->
    simdJsonExtract parse json path (logged consumer) cache (s, [])
    = Some (Ok false, (snd (getInstance path cache), (s, []))).
Proof.
  intros State parse json code path tokens consumer cache s Hok Htok Hparse.
  destruct (getInstance_compiles path Hok Htok) as [a Hget].
  unfold simdJsonExtract, tryBlock.
  destruct (getInstance path cache) as [got cache'].
  simpl in Hget. subst got. now rewrite Hparse.
Qed.

Lemma malformed_json_returns_false_witness :
  (cache_ok emptyCache
   /\ JsonPathTokenizer.tokenize "$.a[*]" = Some ["a"; "*"]
   /\ (fun _ : String.string => @inl error_code document TAPE_ERROR) "{"
      = inl TAPE_ERROR)
  /\ simdJsonExtract (fun _ => inl TAPE_ERROR) "{" "$.a[*]"
       (logged recorder) emptyCache ([], [])
     = Some (Ok false, (snd (getInstance "$.a[*]" emptyCache), ([], []))).
Proof.
  split.
  - split; [constructor | split; reflexivity].
  - apply (@malformed_json_returns_false _ (fun _ => inl TAPE_ERROR) "{"
             TAPE_ERROR "$.a[*]" ["a"; "*"] recorder emptyCache []).
    + constructor.
    + reflexivity.
    + reflexivity.
Defined.

(** C7: a path the tokenizer rejects makes the constructor throw the user
    error that carries the path; the error leaves [simdJsonExtract] as an
    exception, not as a boolean, before the input is parsed or the consumer
    invoked.  [$[] and [$.] are such paths. *)
Theorem malformed_path_raises :
  (forall (State : Type) parse json path (consumer : Consumer State)
          cache s,
      cache_ok cache ->
      JsonPathTokenizer.tokenize path = None ->
      SIMDJsonExtractor_new path
      = Throw (VeloxUserError ("Invalid JSON path: " ++ path)%string)
      /\ simdJsonExtract parse json path (logged consumer) cache (s, [])
         = Some (Throw (VeloxUserError ("Invalid JSON path: " ++ path)%string),
                 (cache, (s, []))))
  /\ JsonPathTokenizer.tokenize "$[" = None
  /\ JsonPathTokenizer.tokenize "$." = None.
Proof.
  split; [|split; reflexivity].
  intros State parse json path consumer cache s Hok Htok. split.
  - unfold SIMDJsonExtractor_new. now rewrite Htok.
  - unfold simdJsonExtract, tryBlock.
    now rewrite (getInstance_invalid path Hok Htok).
Qed.

Lemma malformed_path_raises_witness :
  (cache_ok emptyCache /\ JsonPathTokenizer.tokenize "$[" = None)
  /\ simdJsonExtract (fun _ => inr doc_a123) "json" "$["
       (logged recorder) emptyCache ([], [])
     = Some (Throw (VeloxUserError "Invalid JSON path: $["),
             (emptyCache, ([], []))).
Proof.
  split.
  - split; [constructor | reflexivity].
  - apply (proj2 (proj1 malformed_path_raises _ (fun _ => inr doc_a123)
                    "json" "$[" recorder emptyCache []
                    emptyCache_ok eq_refl)).
Defined.

(** C2: with a path that compiles, the boolean tells whether a
    [simdjson_error] was raised and nothing else: an input the parser
    rejects gives [false]; an input that parses gives [true] when the
    traversal returns and [false] when it ends in a [simdjson_error]
    (any other exception of the consumer leaves the call as it is).  The
    number of matches plays no part: for every [n] the path [$[*]] over an
    array of [n] elements delivers [n] matches and returns [true]. *)
Theorem simdJsonExtract_result :
  (forall (State : Type) parse json path tokens (consumer : Consumer State)
          cache s,
      cache_ok cache ->
      JsonPathTokenizer.tokenize path = Some tokens ->
      (forall code,
          parse json = inl code ->
          simdJsonExtract parse json path consumer cache s
          = Some (Ok false, (snd (getInstance path cache), s)))
      /\ (forall jsonDoc,
             parse json = inr jsonDoc ->
             exists outcome s',
               traverse {| tokens_ := tokens |} jsonDoc consumer s
               = Some (outcome, s')
               /\ simdJsonExtract parse json path consumer cache s
                  = Some (match outcome with
                          | Ok _ => Ok true
                          | Throw (simdjson_error _) => Ok false
                          | Throw other => Throw other
                          end,
                          (snd (getInstance path cache), s'))))
  /\ (forall parse json cache n,
         cache_ok cache ->
         parse json = inr (Document (Array (repeat Null n))) ->
         simdJsonExtract parse json "$[*]" recorder cache []
         = Some (Ok true,
                 (snd (getInstance "$[*]" cache),
                  map OfValue (repeat Null n)))).
Proof.
  split.
  - intros State parse json path tokens consumer cache s Hok Htok. split.
    + intros code Hparse.
      destruct (getInstance_compiles path Hok Htok) as [a Hget].
      unfold simdJsonExtract, tryBlock.
      destruct (getInstance path cache) as [got cache'].
      simpl in Hget. subst got. now rewrite Hparse.
    + intros jsonDoc Hparse.
      rewrite (@simdJsonExtract_traverse _ parse json path consumer
                 cache s _ _ Hok Htok Hparse).
      pose proof (@traverse_total _ {| tokens_ := tokens |} jsonDoc
                    consumer s) as Htotal.
      destruct (traverse {| tokens_ := tokens |} jsonDoc consumer s)
        as [[outcome s']|]; [|contradiction].
      exists outcome, s'. split; [reflexivity|].
      destruct outcome as [[]|[code|message]]; reflexivity.
  - intros parse json cache n Hok Hparse.
    rewrite (@simdJsonExtract_traverse _ parse json "$[*]" recorder
               cache [] ["*"] _ Hok eq_refl Hparse).
    rewrite traverse_extract by reflexivity.
    unfold root. rewrite extract_wildcard by (simpl; (lia || reflexivity)).
    simpl Nat.eqb. cbv iota.
    now rewrite for_each_recorder.
Qed.

Lemma simdJsonExtract_result_witness :
  (cache_ok emptyCache
   /\ (fun _ : String.string =>
         @inr error_code document (Document (Array (repeat Null 4)))) "json"
      = inr (Document (Array (repeat Null 4))))
  /\ simdJsonExtract (fun _ => inr (Document (Array (repeat Null 4))))
       "json" "$[*]" recorder emptyCache []
     = Some (Ok true,
             (snd (getInstance "$[*]" emptyCache),
              map OfValue (repeat Null 4))).
Proof.
  split.
  - split; [constructor | reflexivity].
  - apply (proj2 simdJsonExtract_result _ "json" emptyCache 4).
    + constructor.
    + reflexivity.
Defined.

(** ** The cache is bounded and shares what it holds *)

Lemma find_entry_absent (path : String.string)
      (l : list (String.string * reference)) :
  find_entry path l = None -> ~ In path (map fst l).
Proof.
  induction l as [|[key r] l IH]; simpl; [tauto|].
  destruct (String.eqb_spec key path) as [->|Hne]; [discriminate|].
  intros Hfind [Heq|Hin]; [contradiction | now apply IH].
Qed.

Lemma remove_entry_keys (path : String.string)
      (l : list (String.string * reference)) :
  incl (map fst (remove_entry path l)) (map fst l)
  /\ ~ In path (map fst (remove_entry path l)).
Proof.
  induction l as [|[key r] l [IHincl IHnot]]; simpl.
  - split; [apply incl_refl | tauto].
  - destruct (String.eqb_spec key path) as [->|Hne]; simpl.
    + split; [now apply incl_tl | exact IHnot].
    + split.
      * apply incl_cons; [now left | now apply incl_tl].
      * intros [Heq|Hin]; [contradiction | now apply IHnot].
Qed.

Lemma remove_entry_NoDup (path : String.string)
      (l : list (String.string * reference)) :
  NoDup (map fst l) -> NoDup (map fst (remove_entry path l)).
Proof.
  induction l as [|[key r] l IH]; simpl; [trivial|].
  intros Hnd. apply NoDup_cons_iff in Hnd as [Hnotin Hnd].
  destruct (key =? path); [now apply IH|].
  simpl. constructor; [|now apply IH].
  intros Hin. apply Hnotin.
  now apply (proj1 (remove_entry_keys path l)).
Qed.

Lemma remove_entry_shrinks (path : String.string)
      (l : list (String.string * reference)) (r : reference) :
  find_entry path l = Some r -> S (length (remove_entry path l)) <= length l.
Proof.
  induction l as [|[key r'] l IH]; simpl; [discriminate|].
  destruct (key =? path).
  - intros _. clear IH. apply le_n_S.
    induction l as [|[k x] l IHl]; simpl; [lia|].
    destruct (k =? path); simpl; lia.
  - intros Hfind. simpl. apply le_n_S. now apply IH.
Qed.

Lemma remove_entry_app (path : String.string)
      (l1 l2 : list (String.string * reference)) :
  remove_entry path (l1 ++ l2) = remove_entry path l1 ++ remove_entry path l2.
Proof.
  induction l1 as [|[key r] l1 IH]; simpl; [reflexivity|].
  destruct (key =? path); [exact IH | simpl; now rewrite IH].
Qed.

Lemma removelast_NoDup (l : list (String.string * reference)) :
  NoDup (map fst l) -> NoDup (map fst (removelast l)).
Proof.
  induction l as [|a [|b l] IH]; simpl; intros Hnd.
  - constructor.
  - constructor.
  - apply NoDup_cons_iff in Hnd as [Hnotin Hnd].
    constructor; [|now apply IH].
    intros Hin. apply Hnotin.
    change (In (fst a) (map fst (b :: l))).
    apply (incl_map fst (removelast_incl (b :: l))). exact Hin.
Qed.

Lemma removelast_shrinks (A : Type) (l : list A) :
  length (removelast l) = length l - 1.
Proof.
  induction l as [|a [|b l] IH]; simpl in *; try reflexivity.
  rewrite IH. lia.
Qed.

Lemma getInstance_bounded (path : String.string) (cache : ExtractorCache) :
  cache_bounded cache -> cache_bounded (snd (getInstance path cache)).
Proof.
  unfold cache_bounded, getInstance. intros [Hnd Hlen].
  destruct (find_entry path (entries cache)) as [hit|] eqn:Hfind; simpl.
  - split.
    + constructor.
      * apply remove_entry_keys.
      * now apply remove_entry_NoDup.
    + apply remove_entry_shrinks in Hfind. lia.
  - destruct (SIMDJsonExtractor_new path) as [fresh|e]; simpl;
      [|now split].
    apply find_entry_absent in Hfind.
    destruct (Nat.ltb_spec (length (entries cache)) kMaxCacheSize).
    + split; [now constructor | lia].
    + split.
      * constructor; [|now apply removelast_NoDup].
        intros Hin. apply Hfind.
        apply (incl_map fst (removelast_incl (entries cache))). exact Hin.
      * rewrite removelast_shrinks. unfold kMaxCacheSize in *. lia.
Qed.

Lemma getInstances_bounded (paths : list String.string) :
  forall cache, cache_bounded cache -> cache_bounded (getInstances paths cache).
Proof.
  induction paths as [|path paths IH]; intros cache Hb; simpl.
  - exact Hb.
  - apply IH. now apply getInstance_bounded.
Qed.

Lemma emptyCache_bounded : cache_bounded emptyCache.
Proof. split; [constructor | unfold kMaxCacheSize; simpl; lia]. Qed.

Lemma find_entry_middle (path : String.string) (r : reference)
      (pre post : list (String.string * reference)) :
  NoDup (map fst (pre ++ (path, r) :: post)) ->
  find_entry path (pre ++ (path, r) :: post) = Some r.
Proof.
  induction pre as [|[key x] pre IH]; simpl; intros Hnd.
  - now rewrite String.eqb_refl.
  - apply NoDup_cons_iff in Hnd as [Hnotin Hnd].
    destruct (String.eqb_spec key path) as [->|Hne]; [|now apply IH].
    exfalso. apply Hnotin. rewrite map_app. apply in_or_app.
    right. now left.
Qed.

Lemma nodup_length_incl (l1 l2 : list String.string) :
  incl l1 l2 ->
  length (nodup string_dec l1) <= length (nodup string_dec l2).
Proof.
  intros Hincl. apply NoDup_incl_length; [apply NoDup_nodup|].
  intros x Hx. apply nodup_In. apply Hincl. now apply nodup_In in Hx.
Qed.

Section LeastRecentlyUsed.

Variable path : String.string.
Variable r : reference.

(** A call with the path itself finds it and moves it to the front. *)
Lemma getInstance_again (cache : ExtractorCache) (seen : list String.string) :
  cache_bounded cache ->
  retained path r seen (entries cache) ->
  fst (getInstance path cache) = Ok r
  /\ retained path r seen (entries (snd (getInstance path cache))).
Proof.
  intros [Hnd _] (pre & post & Hl & Hincl).
  unfold getInstance. rewrite Hl in *.
  rewrite (find_entry_middle _ _ _ _ Hnd). simpl. split; [reflexivity|].
  exists [], (remove_entry path (pre ++ (path, r) :: post)).
  split; [reflexivity | intros x []].
Qed.

(** A call with another path leaves it cached, unless it was the last of a
    full cache and the other path is new. *)
Lemma getInstance_other (q : String.string) (cache : ExtractorCache)
      (seen : list String.string) :
  q <> path ->
  cache_bounded cache ->
  retained path r seen (entries cache) ->
  length (nodup string_dec (q :: seen)) < kMaxCacheSize ->
  retained path r (q :: seen) (entries (snd (getInstance q cache))).
Proof.
  intros Hne [Hnd Hlen] (pre & post & Hl & Hincl) Hfew.
  assert (Hpq : (path =? q) = false).
  { apply String.eqb_neq. congruence. }
  unfold getInstance.
  destruct (find_entry q (entries cache)) as [hit|] eqn:Hfind; simpl.
  - exists ((q, hit) :: remove_entry q pre), (remove_entry q post). split.
    + rewrite Hl, remove_entry_app. simpl. now rewrite Hpq.
    + simpl. apply incl_cons; [now left|]. apply incl_tl.
      intros x Hx. apply Hincl.
      now apply (proj1 (remove_entry_keys q pre)).
  - destruct (SIMDJsonExtractor_new q) as [fresh|e]; simpl.
    2:{ exists pre, post. split; [exact Hl | now apply incl_tl]. }
    destruct (Nat.ltb_spec (length (entries cache)) kMaxCacheSize)
      as [Hroom|Hfull].
    + exists ((q, {| address := allocations cache; target := fresh |}) :: pre),
        post.
      split; [now rewrite Hl|].
      simpl. apply incl_cons; [now left | now apply incl_tl].
    + destruct post as [|next post].
      * exfalso.
        apply find_entry_absent in Hfind.
        rewrite Hl, map_app in Hnd, Hfind.
        assert (Hdistinct : NoDup (q :: map fst pre)).
        { constructor.
          - intros Hin. apply Hfind. apply in_or_app. now left.
          - now apply NoDup_app_remove_r in Hnd. }
        assert (Hsub : incl (q :: map fst pre)
                         (nodup string_dec (q :: seen))).
        { apply nodup_incl. apply incl_cons; [now left | now apply incl_tl]. }
        pose proof (NoDup_incl_length Hdistinct Hsub) as Hcount.
        rewrite Hl in Hfull. rewrite length_app in Hfull.
        change (length (q :: map fst pre))
          with (S (length (map fst pre))) in Hcount.
        rewrite length_map in Hcount. simpl in Hfull. lia.
      * exists ((q, {| address := allocations cache; target := fresh |}) :: pre),
          (removelast (next :: post)).
        split.
        -- rewrite Hl. simpl. f_equal.
           rewrite removelast_app by discriminate. reflexivity.
        -- simpl. apply incl_cons; [now left | now apply incl_tl].
Qed.

(** As long as fewer than [kMaxCacheSize] distinct other paths are asked
    for, the path stays cached with the reference it had. *)
Lemma getInstances_retains (between : list String.string) :
  forall cache seen,
    cache_bounded cache ->
    retained path r seen (entries cache) ->
    length (nodup string_dec (others path between ++ seen)) < kMaxCacheSize ->
    fst (getInstance path (getInstances between cache)) = Ok r.
Proof.
  induction between as [|q between IH]; intros cache seen Hb Hret Hfew.
  - simpl. now apply (getInstance_again Hb Hret).
  - simpl getInstances. unfold others in Hfew. simpl in Hfew.
    fold (others path between) in Hfew.
    destruct (String.eqb_spec q path) as [->|Hne]; simpl in Hfew.
    + apply (IH _ seen).
      * now apply getInstance_bounded.
      * now apply getInstance_again.
      * exact Hfew.
    + apply (IH _ (q :: seen)).
      * now apply getInstance_bounded.
      * apply getInstance_other; try assumption.
        eapply Nat.le_lt_trans; [|exact Hfew].
        apply (nodup_length_incl (l1 := q :: seen)
                 (l2 := q :: others path between ++ seen)).
        apply incl_cons; [now left|]. apply incl_tl.
        now apply incl_appr.
      * eapply Nat.le_lt_trans; [|exact Hfew].
        apply (nodup_length_incl (l1 := others path between ++ q :: seen)
                 (l2 := q :: others path between ++ seen)).
        intros x Hx. apply in_app_or in Hx as [Hx|[Hx|Hx]].
        -- right. apply in_or_app. now left.
        -- now left.
        -- right. apply in_or_app. now right.
Qed.

End LeastRecentlyUsed.

Lemma getInstance_front (path : String.string) (cache : ExtractorCache)
      (r : reference) :
  fst (getInstance path cache) = Ok r ->
  retained path r [] (entries (snd (getInstance path cache))).
Proof.
  unfold getInstance.
  destruct (find_entry path (entries cache)) as [hit|]; simpl.
  - intros [= ->]. eexists [], _. split; [reflexivity | intros x []].
  - destruct (SIMDJsonExtractor_new path) as [fresh|e]; simpl; [|discriminate].
    intros [= <-]. eexists [], _. split; [reflexivity | intros x []].
Qed.

(** With thirty-two other paths compiled in between, the second call for
    [$.a] finds its entry evicted and compiles the path again: the
    extractor it returns is a new object. *)
Lemma evicted_path_is_recompiled :
  fst (getInstance "$.a" emptyCache)
  = Ok {| address := 0; target := {| tokens_ := ["a"] |} |}
  /\ fst (getInstance "$.a"
            (getInstances thirty_two_paths
               (snd (getInstance "$.a" emptyCache))))
     = Ok {| address := 33; target := {| tokens_ := ["a"] |} |}.
Proof. split; vm_compute; reflexivity. Qed.

(** C8 (amended): the cache holds at most [kMaxCacheSize] = 32 distinct
    paths after any history of calls, and two calls with the same path
    return the same reference whenever fewer than 32 distinct other paths
    were asked for between them. *)
Theorem cache_bounded_and_shared :
  kMaxCacheSize = 32
  /\ (forall history,
         NoDup (map fst (entries (getInstances history emptyCache)))
         /\ length (entries (getInstances history emptyCache))
            <= kMaxCacheSize)
  /\ (forall history path between,
         distinct_others path between < kMaxCacheSize ->
         fst (getInstance path
                (getInstances between
                   (snd (getInstance path
                           (getInstances history emptyCache)))))
         = fst (getInstance path (getInstances history emptyCache))).
Proof.
  split; [reflexivity|]. split.
  - intros history.
    apply (getInstances_bounded history emptyCache_bounded).
  - intros history path between Hfew.
    pose proof (getInstances_bounded history emptyCache_bounded) as Hb.
    pose proof (getInstances_cache_ok history emptyCache_ok) as Hok.
    set (cache := getInstances history emptyCache) in *.
    destruct (JsonPathTokenizer.tokenize path) as [tokens|] eqn:Htok.
    + destruct (getInstance_compiles path Hok Htok) as [a Hget].
      rewrite Hget.
      apply getInstances_retains with (seen := []).
      * now apply getInstance_bounded.
      * now apply getInstance_front.
      * now rewrite app_nil_r.
    + rewrite (getInstance_invalid path Hok Htok). simpl.
      now rewrite (getInstance_invalid path
                     (getInstances_cache_ok between Hok) Htok).
Qed.

Lemma cache_bounded_and_shared_witness :
  distinct_others "$.a" ["$.b"; "$.a"; "$.b"; "$["] < kMaxCacheSize
  /\ fst (getInstance "$.a"
            (getInstances ["$.b"; "$.a"; "$.b"; "$["]
               (snd (getInstance "$.a" (getInstances ["$.c"] emptyCache)))))
     = fst (getInstance "$.a" (getInstances ["$.c"] emptyCache)).
Proof.
  split.
  - vm_compute. lia.
  - apply (proj2 (proj2 cache_bounded_and_shared) ["$.c"] "$.a"
             ["$.b"; "$.a"; "$.b"; "$["]).
    vm_compute. lia.
Defined.

(** ** Runs on small inputs *)

Example tokenize_root : JsonPathTokenizer.tokenize "$" = Some [].
Proof. reflexivity. Qed.

Example tokenize_segments :
  JsonPathTokenizer.tokenize "$.a.b[10].c" = Some ["a"; "b"; "10"; "c"].
Proof. reflexivity. Qed.

Example tokenize_rejects :
  map JsonPathTokenizer.tokenize
    ["$["; "$."; "$..a"; "$[x]"; "a"; ""; "$a"; "$[1"; "$.a]"; "$[]"]
  = repeat None 10.
Proof. reflexivity. Qed.

(** [$.a.b] over {a: {b: 7}}: one match, the scalar 7. *)
Example extract_a_b :
  extract {| tokens_ := ["a"; "b"] |} recorder 2
    (Object [("a", Object [("b", Number 7)])]) 0 []
  = Some (Ok tt, [OfValue (Number 7)]).
Proof. reflexivity. Qed.

(** [$.a[*].x] over {a: [{x: 1}, {y: 2}, {x: 3}]}: the element without
    [x] is skipped. *)
Example extract_a_star_x :
  extract {| tokens_ := ["a"; "*"; "x"] |} recorder 3
    (Object [("a", Array [Object [("x", Number 1)];
                          Object [("y", Number 2)];
                          Object [("x", Number 3)]])]) 0 []
  = Some (Ok tt, [OfValue (Number 1); OfValue (Number 3)]).
Proof. reflexivity. Qed.

(** An index past the end and an index inside. *)
Example extract_subscripts :
  extract {| tokens_ := ["5"] |} recorder 1
    (Array [Number 1; Number 2]) 0 []
  = Some (Ok tt, [])
  /\ extract {| tokens_ := ["1"] |} recorder 1
       (Array [Number 1; Number 2]) 0 []
     = Some (Ok tt, [OfValue (Number 2)]).
Proof. split; reflexivity. Qed.

(** Two nested wildcards need two levels of calls: one is not enough. *)
Example extract_budget_is_tight :
  extract {| tokens_ := ["*"; "*"] |} recorder 1
    (Array [Array [Number 1]; Array [Number 2; Number 3]]) 0 []
  = None
  /\ extract {| tokens_ := ["*"; "*"] |} recorder 2
       (Array [Array [Number 1]; Array [Number 2; Number 3]]) 0 []
     = Some (Ok tt,
             [OfValue (Number 1); OfValue (Number 2); OfValue (Number 3)]).
Proof. split; reflexivity. Qed.

(** A consumer that throws a [simdjson_error] on the second element: the
    first invocation stands, the call returns [false]. *)
Example consumer_error_returns_false :
  simdJsonExtract (fun _ => inr doc_a123) "json" "$.a[*]"
    (logged (fun matched (_ : unit) =>
               match matched with
               | OfValue (Number 2) =>
                   (Throw (simdjson_error INCORRECT_TYPE), tt)
               | _ => (Ok tt, tt)
               end))
    emptyCache (tt, [])
  = Some (Ok false,
          (snd (getInstance "$.a[*]" emptyCache),
           (tt, [OfValue (Number 1); OfValue (Number 2)]))).
Proof. reflexivity. Qed.

(** ** The traversal as a stream *)

Lemma feed_app (State : Type) (consumer : Consumer State)
      (nodes1 nodes2 : list node) :
  forall s,
    feed consumer (nodes1 ++ nodes2) s
    = match feed consumer nodes1 s with
      | (Ok tt, s') => feed consumer nodes2 s'
      | thrown => thrown
      end.
Proof.
  induction nodes1 as [|matched nodes1 IH]; intros s; simpl.
  - reflexivity.
  - destruct (consumer matched s) as [[[]|e] s']; [apply IH | reflexivity].
Qed.

Lemma feed_one (State : Type) (consumer : Consumer State)
      (matched : node) (s : State) :
  feed consumer [matched] s = consumer matched s.
Proof.
  simpl. destruct (consumer matched s) as [[[]|e] s']; reflexivity.
Qed.

Lemma feed_recorder (nodes : list node) :
  forall seen, feed recorder nodes seen = (Ok tt, seen ++ nodes).
Proof.
  induction nodes as [|matched nodes IH]; intros seen; simpl.
  - now rewrite app_nil_r.
  - rewrite IH. now rewrite <- app_assoc.
Qed.

Lemma for_each_feed (State : Type) (consumer : Consumer State)
      (children : list value) (body : value -> Run State)
      (chosen : value -> list value) :
  (forall child s,
      In child children ->
      body child s = Some (feed consumer (map OfValue (chosen child)) s)) ->
  forall s,
    for_each children body s
    = Some (feed consumer (map OfValue (flat_map chosen children)) s).
Proof.
  induction children as [|child children IH]; intros Hbody s.
  - reflexivity.
  - simpl. rewrite (Hbody child s (or_introl eq_refl)).
    rewrite map_app, feed_app.
    destruct (feed consumer (map OfValue (chosen child)) s)
      as [[[]|e] s']; [|reflexivity].
    apply IH. intros c s0 Hin. apply Hbody. now right.
Qed.

Lemma skipn_cons_inv (A : Type) (d : A) (l : list A) :
  forall (i : nat) (x : A) (rest : list A),
    skipn i l = x :: rest ->
    i < length l /\ nth i l d = x /\ skipn (S i) l = rest.
Proof.
  induction l as [|a l IH]; intros i x rest Hskip.
  - destruct i; discriminate.
  - destruct i as [|i]; simpl in Hskip.
    + injection Hskip as -> ->. simpl. repeat split. lia.
    + destruct (IH i x rest Hskip) as (Hlt & Hnth & Hrest).
      simpl. repeat split; (assumption || lia).
Qed.

Lemma skipn_nil_inv (A : Type) (l : list A) (i : nat) :
  skipn i l = [] -> length l <= i.
Proof.
  revert i. induction l as [|a l IH]; intros [|i] H; simpl in *;
    try lia; try discriminate.
  apply IH in H. lia.
Qed.

Section Stream.

Variable State : Type.
Variable this : SIMDJsonExtractor.
Variable consumer : Consumer State.

(** The loop with its budget against the recursion on the tokens left. *)
Lemma extract_select (rest : list String.string) :
  forall tokenIndex depth json s,
    skipn tokenIndex (tokens_ this) = rest ->
    depth_bound this tokenIndex <= depth ->
    extract this consumer depth json tokenIndex s
    = Some (feed consumer (map OfValue (select rest json)) s).
Proof.
  induction rest as [|token rest IH];
    intros tokenIndex depth json s Hskip Hdepth;
    (destruct depth as [|depth]; [unfold depth_bound in Hdepth; lia|]).
  - apply skipn_nil_inv in Hskip.
    rewrite extract_end by assumption. simpl select. simpl map.
    now rewrite feed_one.
  - destruct (skipn_cons_inv "" _ _ Hskip) as (Hlt & Hnth & Hrest).
    assert (Hnext : depth_bound this (S tokenIndex) <= S depth).
    { unfold depth_bound in *. lia. }
    destruct json as [| b | n | str | children | fields].
    1-4: now rewrite extract_scalar.
    + destruct (String.eqb_spec token "*") as [->|Hne].
      * rewrite extract_wildcard by assumption.
        simpl select. apply for_each_feed. intros child s0 _.
        destruct (Nat.eqb_spec tokenIndex (length (tokens_ this) - 1))
          as [Hlast|Hmore].
        -- assert (rest = []) as ->.
           { rewrite <- Hrest. apply skipn_all2. lia. }
           simpl select. simpl map. now rewrite feed_one.
        -- replace (tokenIndex + 1) with (S tokenIndex) by lia.
           apply IH; [assumption|]. unfold depth_bound in *. lia.
      * rewrite extract_subscript by congruence. rewrite Hnth.
        simpl select.
        destruct (String.eqb_spec token "*") as [|_]; [contradiction|].
        destruct (extractArray (Array children) token) as [found|];
          [now apply IH | reflexivity].
    + rewrite extract_object by assumption. rewrite Hnth. simpl select.
      unfold extractObject. simpl get_object. cbv iota.
      destruct (find_field token fields) as [found|];
        [now apply IH | reflexivity].
Qed.

End Stream.

Lemma delivered_select (this : SIMDJsonExtractor) (json : value)
      (tokenStartIndex : nat) :
  delivered this json tokenStartIndex
  = map OfValue (select (skipn tokenStartIndex (tokens_ this)) json).
Proof.
  unfold delivered.
  rewrite (@extract_select _ this recorder _ tokenStartIndex _ json []
             eq_refl (le_n _)).
  now rewrite feed_recorder.
Qed.

(** X1: whatever the consumer, [extract] hands it the nodes it hands the
    recording consumer, in the same order, until an invocation throws; the
    exception of that invocation ends the call, with the state the consumer
    left, and no further node is handed over. *)
Theorem extract_feeds_consumer :
  forall (State : Type) (this : SIMDJsonExtractor)
         (consumer : Consumer State) (depth : nat) (json : value)
         (tokenStartIndex : nat) (s : State),
    1 <= depth ->
    length (tokens_ this) - tokenStartIndex <= depth ->
    extract this consumer depth json tokenStartIndex s
    = Some (feed consumer (delivered this json tokenStartIndex) s).
Proof.
  intros State this consumer depth json tokenStartIndex s Hpos Hdepth.
  rewrite delivered_select. apply extract_select; [reflexivity|].
  unfold depth_bound. lia.
Qed.

Lemma extract_feeds_consumer_witness :
  (1 <= 2 /\ length ["a"; "*"] - 0 <= 2)
  /\ extract {| tokens_ := ["a"; "*"] |}
       (logged (fun matched (_ : unit) =>
                  match matched with
                  | OfValue (Number 2) =>
                      (Throw (VeloxUserError "stop"), tt)
                  | _ => (Ok tt, tt)
                  end))
       2 (root doc_a123) 0 (tt, [])
     = Some (feed
               (logged (fun matched (_ : unit) =>
                          match matched with
                          | OfValue (Number 2) =>
                              (Throw (VeloxUserError "stop"), tt)
                          | _ => (Ok tt, tt)
                          end))
               (delivered {| tokens_ := ["a"; "*"] |} (root doc_a123) 0)
               (tt, [])).
Proof.
  split; [simpl; lia|].
  apply extract_feeds_consumer; simpl; lia.
Defined.

Lemma flat_map_flat_map (A B C : Type) (f : A -> list B) (g : B -> list C)
      (l : list A) :
  flat_map g (flat_map f l) = flat_map (fun a => flat_map g (f a)) l.
Proof.
  induction l as [|a l IH]; simpl; [reflexivity|].
  now rewrite flat_map_app, IH.
Qed.

Lemma select_app (tokens1 tokens2 : list String.string) :
  forall json,
    select (tokens1 ++ tokens2) json
    = flat_map (select tokens2) (select tokens1 json).
Proof.
  induction tokens1 as [|token rest IH]; intros json.
  - simpl. now rewrite app_nil_r.
  - simpl.
    destruct (type json); try reflexivity.
    + destruct (token =? "*").
      * destruct (get_array json) as [code|children]; [reflexivity|].
        rewrite flat_map_flat_map. apply flat_map_ext. intros child. apply IH.
      * destruct (extractArray json token); [apply IH | reflexivity].
    + destruct (extractObject json token); [apply IH | reflexivity].
Qed.

(** X2: paths compose.  The nodes delivered for the tokens of one path
    followed by those of another are the nodes the second delivers from
    each node the first delivers, in order. *)
Theorem delivered_compose :
  forall (tokens1 tokens2 : list String.string) (json : value),
    delivered {| tokens_ := tokens1 ++ tokens2 |} json 0
    = flat_map
        (fun matched =>
           delivered {| tokens_ := tokens2 |} (value_of matched) 0)
        (delivered {| tokens_ := tokens1 |} json 0).
Proof.
  intros tokens1 tokens2 json.
  rewrite delivered_select. simpl skipn. simpl tokens_.
  rewrite select_app, delivered_select. simpl skipn. simpl tokens_.
  induction (select tokens1 json) as [|found l IH]; simpl.
  - reflexivity.
  - rewrite map_app, IH. f_equal. now rewrite delivered_select.
Qed.

(** X3: with start indices and token counts that fit an [int], a call of
    [extract] reads no token before [tokenStartIndex]: two extractors whose
    tokens agree from the start indices on run alike, so a call at
    [tokenStartIndex] is a call at 0 on the tokens left. *)
Theorem extract_reads_tokens_left :
  forall (State : Type) (this1 this2 : SIMDJsonExtractor)
         (consumer : Consumer State) (depth1 depth2 : nat) (json : value)
         (index1 index2 : nat) (s : State),
    within_int this1 index1 ->
    within_int this2 index2 ->
    skipn index1 (tokens_ this1) = skipn index2 (tokens_ this2) ->
    1 <= depth1 -> length (tokens_ this1) - index1 <= depth1 ->
    1 <= depth2 -> length (tokens_ this2) - index2 <= depth2 ->
    extract this1 consumer depth1 json index1 s
    = extract this2 consumer depth2 json index2 s.
Proof.
  intros State this1 this2 consumer depth1 depth2 json index1 index2 s
         _ _ Hsame Hpos1 Hdepth1 Hpos2 Hdepth2.
  rewrite (@extract_select _ this1 consumer _ index1 depth1 json s eq_refl)
    by (unfold depth_bound; lia).
  rewrite (@extract_select _ this2 consumer _ index2 depth2 json s eq_refl)
    by (unfold depth_bound; lia).
  now rewrite Hsame.
Qed.

Lemma extract_reads_tokens_left_witness :
  (within_int {| tokens_ := ["skipped"; "a"; "*"] |} 1
   /\ within_int {| tokens_ := ["a"; "*"] |} 0
   /\ skipn 1 (tokens_ {| tokens_ := ["skipped"; "a"; "*"] |})
   = skipn 0 (tokens_ {| tokens_ := ["a"; "*"] |})
   /\ 1 <= 2 /\ length ["skipped"; "a"; "*"] - 1 <= 2
   /\ 1 <= 2 /\ length ["a"; "*"] - 0 <= 2)
  /\ extract {| tokens_ := ["skipped"; "a"; "*"] |} recorder 2
       (root doc_a123) 1 []
     = extract {| tokens_ := ["a"; "*"] |} recorder 2 (root doc_a123) 0 [].
Proof.
  assert (Hfit1 : within_int {| tokens_ := ["skipped"; "a"; "*"] |} 1).
  { unfold within_int, INT_MAX. simpl. lia. }
  assert (Hfit2 : within_int {| tokens_ := ["a"; "*"] |} 0).
  { unfold within_int, INT_MAX. simpl. lia. }
  split;
    [split; [exact Hfit1 | split; [exact Hfit2 | split;
       [reflexivity | simpl; lia]]]|].
  apply extract_reads_tokens_left;
    try assumption; simpl; (reflexivity || lia).
Defined.

Lemma select_at_most_one (tokens : list String.string) :
  ~ In "*" tokens -> forall json, length (select tokens json) <= 1.
Proof.
  induction tokens as [|token rest IH]; intros Hnone json; simpl.
  - lia.
  - assert (Hrest : ~ In "*" rest) by (intros H; apply Hnone; now right).
    assert (Htoken : (token =? "*") = false).
    { apply String.eqb_neq. intros ->. apply Hnone. now left. }
    destruct (type json); simpl; try lia.
    + rewrite Htoken.
      destruct (extractArray json token); [now apply IH | simpl; lia].
    + destruct (extractObject json token); [now apply IH | simpl; lia].
Qed.

(** X4: with a start index and a token count that fit an [int], when none
    of the tokens left is the wildcard, [extract] invokes the consumer at
    most once, whatever the document and the consumer. *)
Theorem no_wildcard_at_most_one_invocation :
  forall (State : Type) (this : SIMDJsonExtractor)
         (consumer : Consumer State) (depth : nat) (json : value)
         (tokenStartIndex : nat) (s : State) (log : list node),
    within_int this tokenStartIndex ->
    1 <= depth ->
    length (tokens_ this) - tokenStartIndex <= depth ->
    ~ In "*" (skipn tokenStartIndex (tokens_ this)) ->
    exists outcome s' invoked,
      extract this (logged consumer) depth json tokenStartIndex (s, log)
      = Some (outcome, (s', log ++ invoked))
      /\ length invoked <= 1.
Proof.
  intros State this consumer depth json tokenStartIndex s log
         _ Hpos Hdepth Hnone.
  rewrite (@extract_select _ this (logged consumer) _ tokenStartIndex depth
             json (s, log) eq_refl) by (unfold depth_bound; lia).
  pose proof (@select_at_most_one _ Hnone json) as Hone.
  destruct (select (skipn tokenStartIndex (tokens_ this)) json)
    as [|found [|more l]]; simpl in Hone; [| |lia].
  - exists (Ok tt), s, []. split; [simpl; now rewrite app_nil_r | simpl; lia].
  - simpl map. rewrite feed_one. unfold logged. simpl.
    destruct (consumer (OfValue found) s) as [outcome s'].
    exists outcome, s', [OfValue found]. split; [reflexivity | simpl; lia].
Qed.

Lemma no_wildcard_at_most_one_invocation_witness :
  (within_int {| tokens_ := ["a"; "1"] |} 0
   /\ 1 <= 2 /\ length ["a"; "1"] - 0 <= 2
   /\ ~ In "*" (skipn 0 (tokens_ {| tokens_ := ["a"; "1"] |})))
  /\ exists outcome s' invoked,
      extract {| tokens_ := ["a"; "1"] |} (logged recorder) 2
        (root doc_a123) 0 ([], [])
      = Some (outcome, (s', [] ++ invoked))
      /\ length invoked <= 1.
Proof.
  assert (Hnone : ~ In "*" (skipn 0 (tokens_ {| tokens_ := ["a"; "1"] |}))).
  { simpl. intros [H|[H|[]]]; discriminate H. }
  assert (Hfit : within_int {| tokens_ := ["a"; "1"] |} 0).
  { unfold within_int, INT_MAX. simpl. lia. }
  split; [split; [exact Hfit | repeat split; (exact Hnone || simpl; lia)]|].
  apply no_wildcard_at_most_one_invocation;
    try assumption; simpl; lia.
Defined.

Lemma find_field_In (key : String.string)
      (fields : list (String.string * value)) (found : value) :
  find_field key fields = Some found -> In (key, found) fields.
Proof.
  induction fields as [|[k v] fields IH]; simpl; [discriminate|].
  destruct (String.eqb_spec k key) as [->|_].
  - intros [= ->]. now left.
  - intros H. right. now apply IH.
Qed.

Lemma select_inside (tokens : list String.string) (top : value) :
  forall json found,
    inside top json -> In found (select tokens json) -> inside top found.
Proof.
  induction tokens as [|token rest IH]; intros json found Hjson Hin.
  - simpl in Hin. destruct Hin as [<-|[]]. exact Hjson.
  - destruct json as [| b | n | str | children | fields];
      simpl in Hin; try contradiction.
    + destruct (token =? "*").
      * apply in_flat_map in Hin as (child & Hchild & Hin).
        apply (IH child); [|exact Hin].
        eapply inside_element; eassumption.
      * unfold extractArray in Hin. simpl get_array in Hin.
        destruct (to_index token) as [n|]; [|contradiction].
        destruct (nth_error children n) as [child|] eqn:Hnth;
          [|contradiction].
        apply (IH child); [|exact Hin].
        apply nth_error_In in Hnth. eapply inside_element; eassumption.
    + unfold extractObject in Hin. simpl get_object in Hin.
      destruct (find_field token fields) as [child|] eqn:Hfind;
        [|contradiction].
      apply (IH child); [|exact Hin].
      apply find_field_In in Hfind. eapply inside_member; eassumption.
Qed.

(** X5: every node [extract] hands to the consumer is a value of the
    document it was called on: the node itself or one reached from it
    through array elements and object members. *)
Theorem delivered_inside_document :
  forall (this : SIMDJsonExtractor) (json : value) (tokenStartIndex : nat)
         (matched : node),
    In matched (delivered this json tokenStartIndex) ->
    exists found, matched = OfValue found /\ inside json found.
Proof.
  intros this json tokenStartIndex matched Hin.
  rewrite delivered_select in Hin.
  apply in_map_iff in Hin as (found & <- & Hin).
  exists found. split; [reflexivity|].
  eapply select_inside; [apply inside_top | exact Hin].
Qed.

Lemma delivered_inside_document_witness :
  In (OfValue (Number 2)) (delivered {| tokens_ := ["a"; "*"] |}
                             (root doc_a123) 0)
  /\ exists found,
      OfValue (Number 2) = OfValue found /\ inside (root doc_a123) found.
Proof.
  assert (Hin : In (OfValue (Number 2))
                  (delivered {| tokens_ := ["a"; "*"] |} (root doc_a123) 0)).
  { vm_compute. right. left. reflexivity. }
  split; [exact Hin|].
  apply (delivered_inside_document _ _ _ _ Hin).
Defined.

(** ** WaveOperator *)

Lemma map_nth_seq_all (A : Type) (d : A) (l : list A) :
  map (fun i => nth i l d) (seq 0 (length l)) = l.
Proof.
  induction l as [|a l IH]; [reflexivity|].
  simpl length. rewrite <- cons_seq, <- seq_shift. simpl.
  rewrite map_map. simpl. now rewrite IH.
Qed.

Section WaveFacts.

Variable CompileState : Type.
Variable Subfield : Type.
Variable AbstractOperand : Type.
Variable operand_id : AbstractOperand -> nat.
Variable toSubfield : String.string -> CompileState -> Subfield * CompileState.
Variable newOperand :
  wave.TypePtr -> String.string -> CompileState
  -> AbstractOperand * CompileState.
Variable Subfield_eq_dec : forall a b : Subfield, {a = b} + {a <> b}.

Local Notation defineChild :=
  (wave.defineChild operand_id toSubfield newOperand Subfield_eq_dec).
Local Notation definesSubfields :=
  (wave.definesSubfields operand_id toSubfield newOperand Subfield_eq_dec).
Local Notation WaveOperator_new :=
  (wave.WaveOperator_new operand_id toSubfield newOperand Subfield_eq_dec).
Local Notation defined := (wave.defined operand_id Subfield_eq_dec).
Local Notation definition := (wave.definition Subfield_eq_dec).
Local Notation assign := (wave.assign Subfield_eq_dec).

Local Notation defineChildren :=
  (wave.defineChildren operand_id toSubfield newOperand Subfield_eq_dec).

Lemma defineChildren_members (row : wave.TypePtr) (indices : list nat) :
  forall acc,
    wave.types_ (fst (defineChildren row indices acc))
    = wave.types_ (fst acc) ++ map (wave.childAt row) indices
    /\ length (wave.subfields_ (fst (defineChildren row indices acc)))
       = length (wave.subfields_ (fst acc)) + length indices.
Proof.
  induction indices as [|i indices IH]; intros [this state].
  - simpl. rewrite app_nil_r. split; [reflexivity | lia].
  - change (defineChildren row (i :: indices) (this, state))
      with (defineChildren row indices (defineChild row i (this, state))).
    destruct (IH (defineChild row i (this, state))) as (Htypes & Hlen).
    rewrite Htypes, Hlen. clear IH Htypes Hlen.
    unfold wave.defineChild.
    destruct (toSubfield (wave.nameOf row i) state) as [field state1].
    destruct (newOperand (wave.childAt row i) (wave.nameOf row i) state1)
      as [operand state2].
    simpl. rewrite <- app_assoc, length_app. simpl. split; [reflexivity | lia].
Qed.

Lemma definition_assign_same (field : Subfield) (operand : AbstractOperand)
      (defines : list (Subfield * AbstractOperand)) :
  definition field (assign field operand defines) = Some operand.
Proof.
  simpl. destruct (Subfield_eq_dec field field); [reflexivity | contradiction].
Qed.

Lemma definition_assign_other (field other : Subfield)
      (operand : AbstractOperand)
      (defines : list (Subfield * AbstractOperand)) :
  other <> field ->
  definition other (assign field operand defines) = definition other defines.
Proof.
  intros Hne. simpl.
  destruct (Subfield_eq_dec field other) as [Heq|_]; [congruence|].
  induction defines as [|[key o] defines IH]; simpl; [reflexivity|].
  destruct (Subfield_eq_dec key field) as [->|Hkey]; simpl.
  - destruct (Subfield_eq_dec field other); [congruence | exact IH].
  - destruct (Subfield_eq_dec key other); [reflexivity | exact IH].
Qed.

Lemma defineChild_defined (row : wave.TypePtr) (i : nat)
      (acc : wave.WaveOperator Subfield AbstractOperand * CompileState) :
  defined (fst acc) -> defined (fst (defineChild row i acc)).
Proof.
  destruct acc as [this state]. unfold wave.defineChild, wave.defined.
  destruct (toSubfield (wave.nameOf row i) state) as [field state1].
  destruct (newOperand (wave.childAt row i) (wave.nameOf row i) state1)
    as [operand state2].
  simpl. intros Hdef other Hin.
  destruct (Subfield_eq_dec other field) as [->|Hne].
  - exists operand. split; [|now left].
    destruct (Subfield_eq_dec field field); [reflexivity | contradiction].
  - apply in_app_or in Hin as [Hin|[Heq|[]]]; [|congruence].
    destruct (Hdef other Hin) as (o & Hlook & Hid).
    exists o. split; [|now right].
    rewrite <- Hlook. now apply definition_assign_other.
Qed.

Lemma defineChildren_defined (row : wave.TypePtr) (indices : list nat) :
  forall acc,
    defined (fst acc) -> defined (fst (defineChildren row indices acc)).
Proof.
  induction indices as [|i indices IH]; intros acc Hdef.
  - exact Hdef.
  - change (defineChildren row (i :: indices) acc)
      with (defineChildren row indices (defineChild row i acc)).
    apply IH. now apply defineChild_defined.
Qed.

End WaveFacts.

Section WaveRequested.

Variable CompileState : Type.
Variable Subfield : Type.
Variable AbstractOperand : Type.
Variable operand_id : AbstractOperand -> nat.
Variable toSubfield : String.string -> CompileState -> Subfield * CompileState.
Variable newOperand :
  wave.TypePtr -> String.string -> CompileState
  -> AbstractOperand * CompileState.
Variable Subfield_eq_dec : forall a b : Subfield, {a = b} + {a <> b}.

(** The loop pushes the subfields in the order the compile state hands them
    out, and leaves the compile state those requests leave. *)
Lemma defineChildren_requested (row : wave.TypePtr) (indices : list nat) :
  forall this state,
    wave.subfields_
      (fst (wave.defineChildren operand_id toSubfield newOperand
              Subfield_eq_dec row indices (this, state)))
    = wave.subfields_ this
      ++ map fst (fst (wave.requested toSubfield newOperand row indices state))
    /\ snd (wave.defineChildren operand_id toSubfield newOperand
              Subfield_eq_dec row indices (this, state))
       = snd (wave.requested toSubfield newOperand row indices state).
Proof.
  induction indices as [|i indices IH]; intros this state.
  - simpl. now rewrite app_nil_r.
  - change (wave.defineChildren operand_id toSubfield newOperand
              Subfield_eq_dec row (i :: indices) (this, state))
      with (wave.defineChildren operand_id toSubfield newOperand
              Subfield_eq_dec row indices
              (wave.defineChild operand_id toSubfield newOperand
                 Subfield_eq_dec row i (this, state))).
    simpl wave.requested. unfold wave.defineChild.
    destruct (toSubfield (wave.nameOf row i) state) as [field state1].
    destruct (newOperand (wave.childAt row i) (wave.nameOf row i) state1)
      as [operand state2].
    match goal with
    | |- context [wave.defineChildren _ _ _ _ _ _ (?op, _)] =>
        destruct (IH op state2) as (Hfields & Hstate)
    end.
    rewrite Hfields, Hstate.
    destruct (wave.requested toSubfield newOperand row indices state2)
      as [more final].
    simpl. now rewrite <- app_assoc.
Qed.

Lemma requested_length (row : wave.TypePtr) (indices : list nat) :
  forall state,
    length (fst (wave.requested toSubfield newOperand row indices state))
    = length indices.
Proof.
  induction indices as [|i indices IH]; intros state; simpl.
  - reflexivity.
  - destruct (toSubfield (wave.nameOf row i) state) as [field state1].
    destruct (newOperand (wave.childAt row i) (wave.nameOf row i) state1)
      as [operand state2].
    specialize (IH state2).
    destruct (wave.requested toSubfield newOperand row indices state2)
      as [more final].
    simpl in *. now rewrite IH.
Qed.

(** When the subfield of a name does not depend on the compile state, the
    subfields requested are those of the names, in order. *)
Lemma requested_names (subfield_of : String.string -> Subfield)
      (row : wave.TypePtr) (indices : list nat) :
  (forall name state, fst (toSubfield name state) = subfield_of name) ->
  forall state,
    map fst (fst (wave.requested toSubfield newOperand row indices state))
    = map (fun i => subfield_of (wave.nameOf row i)) indices.
Proof.
  intros Hpure. induction indices as [|i indices IH]; intros state; simpl.
  - reflexivity.
  - pose proof (Hpure (wave.nameOf row i) state) as Hfield.
    destruct (toSubfield (wave.nameOf row i) state) as [field state1].
    destruct (newOperand (wave.childAt row i) (wave.nameOf row i) state1)
      as [operand state2].
    specialize (IH state2).
    destruct (wave.requested toSubfield newOperand row indices state2)
      as [more final].
    simpl in *. now rewrite IH, Hfield.
Qed.

End WaveRequested.

(** X6: [definesSubfields] appends to [types_] exactly the types of the
    children of a row, in order and without descending into a nested row,
    and to [subfields_], in the same order, the subfield the compile state
    hands out for each child's name, one per child; it leaves the compile
    state those requests leave.  When the subfield of a name does not
    depend on the compile state, [subfields_] gains the subfields of the
    children's names in order.  For a type that is not a row the operator
    and the compile state are left as they were.  [parentPath] plays no
    part. *)
Theorem definesSubfields_members :
  forall (CompileState Subfield AbstractOperand : Type)
         (operand_id : AbstractOperand -> nat)
         (toSubfield : String.string -> CompileState
                       -> Subfield * CompileState)
         (newOperand : wave.TypePtr -> String.string -> CompileState
                       -> AbstractOperand * CompileState)
         (Subfield_eq_dec : forall a b : Subfield, {a = b} + {a <> b})
         (this : wave.WaveOperator Subfield AbstractOperand)
         (state : CompileState) (type : wave.TypePtr)
         (parentPath : String.string),
    let after :=
      wave.definesSubfields operand_id toSubfield newOperand Subfield_eq_dec
        this state type parentPath in
    let asked :=
      wave.requested toSubfield newOperand type
        (seq 0 (length (wave.rowChildren type))) state in
    wave.types_ (fst after)
    = wave.types_ this ++ map snd (wave.rowChildren type)
    /\ wave.subfields_ (fst after)
       = wave.subfields_ this ++ map fst (fst asked)
    /\ length (fst asked) = length (wave.rowChildren type)
    /\ snd after = snd asked
    /\ (forall subfield_of : String.string -> Subfield,
           (forall name state',
               fst (toSubfield name state') = subfield_of name) ->
           wave.subfields_ (fst after)
           = wave.subfields_ this
             ++ map (fun child => subfield_of (fst child))
                  (wave.rowChildren type))
    /\ length (wave.subfields_ (fst after))
       = length (wave.subfields_ this) + length (wave.rowChildren type)
    /\ (wave.kind type <> wave.ROW -> after = (this, state))
    /\ after
       = wave.definesSubfields operand_id toSubfield newOperand
           Subfield_eq_dec this state type "".
Proof.
  intros CompileState Subfield AbstractOperand operand_id toSubfield
         newOperand Subfield_eq_dec this state type parentPath after asked.
  assert (Htypes : wave.types_ (fst after)
                   = wave.types_ this ++ map snd (wave.rowChildren type)).
  { subst after. unfold wave.definesSubfields.
    destruct type as [| | | | | element | key value | children]; simpl;
      try (now rewrite app_nil_r).
    destruct (defineChildren_members operand_id toSubfield newOperand
                Subfield_eq_dec (wave.RowType children)
                (seq 0 (length children)) (this, state))
      as (Ht & _).
    simpl in Ht. rewrite Ht.
    unfold wave.childAt. simpl wave.rowChildren.
    rewrite <- (length_map snd children).
    now rewrite (map_nth_seq_all (wave.RowType children)
                   (map snd children)). }
  assert (Hfields : wave.subfields_ (fst after)
                    = wave.subfields_ this ++ map fst (fst asked)
                    /\ snd after = snd asked).
  { subst after asked. unfold wave.definesSubfields.
    destruct type as [| | | | | element | key value | children]; simpl;
      try (now rewrite app_nil_r).
    apply defineChildren_requested. }
  assert (Hlen : length (fst asked) = length (wave.rowChildren type)).
  { subst asked. now rewrite requested_length, length_seq. }
  destruct Hfields as (Hfields & Hstate).
  split; [exact Htypes|]. split; [exact Hfields|]. split; [exact Hlen|].
  split; [exact Hstate|]. split; [|split; [|split]].
  - intros subfield_of Hpure. rewrite Hfields. f_equal. subst asked.
    rewrite (@requested_names _ _ _ toSubfield newOperand subfield_of type
               _ Hpure).
    unfold wave.nameOf.
    rewrite <- (length_map fst (wave.rowChildren type)).
    rewrite <- (map_map (fun i => nth i (map fst (wave.rowChildren type)) "")
                  subfield_of).
    rewrite (map_nth_seq_all "" (map fst (wave.rowChildren type))).
    now rewrite map_map.
  - rewrite Hfields, length_app, length_map, Hlen. reflexivity.
  - intros Hkind. subst after. unfold wave.definesSubfields.
    destruct (wave.kind type); try reflexivity. now elim Hkind.
  - reflexivity.
Qed.

Lemma definesSubfields_members_witness :
  ((forall name (state' : nat),
       fst ((fun name0 (state0 : nat) => (name0, state0)) name state')
       = (fun name0 : String.string => name0) name)
   /\ wave.kind wave.BigintType <> wave.ROW)
  /\ wave.subfields_
       (fst (wave.definesSubfields (fun operand : nat => operand)
               (fun name (state : nat) => (name, state))
               (fun _ _ (state : nat) => (state, S state))
               string_dec
               {| wave.outputType_ := wave.BigintType;
                  wave.subfields_ := ["z"];
                  wave.types_ := [wave.VarcharType];
                  wave.outputIds_ := [0];
                  wave.defines_ := [("z", 0)] |}
               1
               (wave.RowType
                  [("a", wave.BigintType); ("b", wave.VarcharType)])
               "parent"))
     = ["z"]
       ++ map (fun child : String.string * wave.TypePtr => fst child)
            (wave.rowChildren
               (wave.RowType
                  [("a", wave.BigintType); ("b", wave.VarcharType)]))
  /\ wave.definesSubfields (fun operand : nat => operand)
       (fun name (state : nat) => (name, state))
       (fun _ _ (state : nat) => (state, S state))
       string_dec
       {| wave.outputType_ := wave.BigintType; wave.subfields_ := ["a"];
          wave.types_ := [wave.VarcharType]; wave.outputIds_ := [0];
          wave.defines_ := [("a", 0)] |}
       1 wave.BigintType "parent"
     = ({| wave.outputType_ := wave.BigintType; wave.subfields_ := ["a"];
           wave.types_ := [wave.VarcharType]; wave.outputIds_ := [0];
           wave.defines_ := [("a", 0)] |}, 1).
Proof.
  assert (Hkind : wave.kind wave.BigintType <> wave.ROW) by discriminate.
  assert (Hpure : forall name (state' : nat),
             fst ((fun name0 (state0 : nat) => (name0, state0)) name state')
             = (fun name0 : String.string => name0) name)
    by reflexivity.
  split; [split; [exact Hpure | exact Hkind]|]. split.
  - apply (proj1 (proj2 (proj2 (proj2 (proj2
             (definesSubfields_members (fun operand : nat => operand)
                (fun name (state : nat) => (name, state))
                (fun _ _ (state : nat) => (state, S state))
                string_dec
                {| wave.outputType_ := wave.BigintType;
                   wave.subfields_ := ["z"];
                   wave.types_ := [wave.VarcharType];
                   wave.outputIds_ := [0];
                   wave.defines_ := [("z", 0)] |}
                1
                (wave.RowType
                   [("a", wave.BigintType); ("b", wave.VarcharType)])
                "parent")))))
             (fun name0 : String.string => name0) Hpure).
  - apply (proj1 (proj2 (proj2 (proj2 (proj2 (proj2 (proj2
             (definesSubfields_members (fun operand : nat => operand)
                (fun name (state : nat) => (name, state))
                (fun _ _ (state : nat) => (state, S state))
                string_dec
                {| wave.outputType_ := wave.BigintType;
                   wave.subfields_ := ["a"];
                   wave.types_ := [wave.VarcharType];
                   wave.outputIds_ := [0];
                   wave.defines_ := [("a", 0)] |}
                1 wave.BigintType "parent")))))))).
    exact Hkind.
Defined.

(** X7: [definesSubfields] keeps the members consistent: if every listed
    subfield has a defining operand whose id is among the output ids, this
    still holds afterwards; so it holds of every operator the constructor
    builds. *)
Theorem definesSubfields_defined :
  forall (CompileState Subfield AbstractOperand : Type)
         (operand_id : AbstractOperand -> nat)
         (toSubfield : String.string -> CompileState
                       -> Subfield * CompileState)
         (newOperand : wave.TypePtr -> String.string -> CompileState
                       -> AbstractOperand * CompileState)
         (Subfield_eq_dec : forall a b : Subfield, {a = b} + {a <> b}),
    (forall (this : wave.WaveOperator Subfield AbstractOperand)
            (state : CompileState) (type : wave.TypePtr)
            (parentPath : String.string),
        wave.defined operand_id Subfield_eq_dec this ->
        wave.defined operand_id Subfield_eq_dec
          (fst (wave.definesSubfields operand_id toSubfield newOperand
                  Subfield_eq_dec this state type parentPath)))
    /\ (forall (state : CompileState) (type : wave.TypePtr),
           wave.defined operand_id Subfield_eq_dec
             (fst (wave.WaveOperator_new operand_id toSubfield newOperand
                     Subfield_eq_dec state type))).
Proof.
  intros CompileState Subfield AbstractOperand operand_id toSubfield
         newOperand Subfield_eq_dec.
  assert (Hkeep :
            forall (this : wave.WaveOperator Subfield AbstractOperand)
                   (state : CompileState) (type : wave.TypePtr)
                   (parentPath : String.string),
              wave.defined operand_id Subfield_eq_dec this ->
              wave.defined operand_id Subfield_eq_dec
                (fst (wave.definesSubfields operand_id toSubfield newOperand
                        Subfield_eq_dec this state type parentPath))).
  { intros this state type parentPath Hdef. unfold wave.definesSubfields.
    destruct (wave.kind type); try exact Hdef.
    apply defineChildren_defined. exact Hdef. }
  split; [exact Hkeep|].
  intros state type. unfold wave.WaveOperator_new. apply Hkeep.
  intros field [].
Qed.

Lemma definesSubfields_defined_witness :
  wave.defined (fun operand : nat => operand) string_dec
    {| wave.outputType_ := wave.VarcharType; wave.subfields_ := [];
       wave.types_ := []; wave.outputIds_ := []; wave.defines_ := [] |}
  /\ wave.defined (fun operand : nat => operand) string_dec
       (fst (wave.definesSubfields (fun operand : nat => operand)
               (fun name (state : nat) => (name, state))
               (fun _ _ (state : nat) => (state, S state))
               string_dec
               {| wave.outputType_ := wave.VarcharType;
                  wave.subfields_ := []; wave.types_ := [];
                  wave.outputIds_ := []; wave.defines_ := [] |}
               0
               (wave.RowType [("a", wave.BigintType); ("a", wave.VarcharType)])
               "")).
Proof.
  assert (Hempty :
            wave.defined (fun operand : nat => operand) string_dec
              {| wave.outputType_ := wave.VarcharType; wave.subfields_ := [];
                 wave.types_ := []; wave.outputIds_ := [];
                 wave.defines_ := [] |}).
  { intros field []. }
  split; [exact Hempty|].
  apply (proj1 (definesSubfields_defined (fun operand : nat => operand)
                  (fun name (state : nat) => (name, state))
                  (fun _ _ (state : nat) => (state, S state))
                  string_dec)).
  exact Hempty.
Defined.

(** A row with a nested row: two entries, the nested row kept whole; a
    repeated name keeps one definition, the later one. *)
Example WaveOperator_new_nested :
  fst (wave.WaveOperator_new (fun operand : nat => operand)
         (fun name (state : nat) => (name, state))
         (fun _ _ (state : nat) => (state, S state))
         string_dec 0
         (wave.RowType
            [("a", wave.BigintType);
             ("b", wave.RowType [("c", wave.VarcharType)]);
             ("a", wave.DoubleType)]))
  = {| wave.outputType_ :=
         wave.RowType
           [("a", wave.BigintType);
            ("b", wave.RowType [("c", wave.VarcharType)]);
            ("a", wave.DoubleType)];
       wave.subfields_ := ["a"; "b"; "a"];
       wave.types_ := [wave.BigintType;
                       wave.RowType [("c", wave.VarcharType)];
                       wave.DoubleType];
       wave.outputIds_ := [2; 1; 0];
       wave.defines_ := [("a", 2); ("b", 1)] |}.
Proof. reflexivity. Qed.
